(** * go-errors: errors with stack traces, type tags and metadata

    A shallow embedding of the [errors] package (frame.go, errors.go,
    recover.go) together with the second, metadata-free errors.go of the
    repository, and the properties of its specification proved about it. *)

From Stdlib Require Import ZArith String Ascii List Lia.
From stdpp Require Import base option list gmap strings.

Local Open Scope Z_scope.

(** ** Go strings

    A Go string is a sequence of bytes: [string] from the standard library.
    Indices are Go [int]s, so the searching functions return a [Z] that is
    [-1] when there is no occurrence, as [strings.Index] and
    [strings.LastIndex] do. *)

Module Strings.

Definition HasPrefix (s prefix : string) : bool := String.prefix prefix s.

Fixpoint Index (s substr : string) : Z :=
  if String.prefix substr s then 0
  else match s with
       | EmptyString => -1
       | String _ s' => let i := Index s' substr in
                        if Z.eqb i (-1) then -1 else i + 1
       end.

Fixpoint LastIndex (s substr : string) : Z :=
  match s with
  | EmptyString => if String.prefix substr s then 0 else -1
  | String _ s' => let i := LastIndex s' substr in
                   if Z.eqb i (-1)
                   then (if String.prefix substr s then 0 else -1)
                   else i + 1
  end.

(** [len s] is Go's [len(s)]. *)
Definition len (s : string) : Z := Z.of_nat (String.length s).

Fixpoint drop (n : nat) (s : string) : string :=
  match n, s with
  | O, _ => s
  | S n', String _ s' => drop n' s'
  | S _, EmptyString => EmptyString
  end.

Fixpoint take (n : nat) (s : string) : string :=
  match n, s with
  | S n', String c s' => String c (take n' s')
  | _, _ => EmptyString
  end.

(** [s[lo:]] and [s[lo:hi]]; the call sites of this package only pass
    bounds with [0 <= lo <= hi <= len s]. *)
Definition slice_from (s : string) (lo : Z) : string := drop (Z.to_nat lo) s.
Definition slice (s : string) (lo hi : Z) : string :=
  take (Z.to_nat (hi - lo)) (drop (Z.to_nat lo) s).

(** Does the byte [c] occur in [s]? *)
Fixpoint has_byte (c : ascii) (s : string) : bool :=
  match s with
  | EmptyString => false
  | String c' s' => if Ascii.eqb c c' then true else has_byte c s'
  end.

End Strings.

(** ** frame.go *)

(** [runtime.Frame], reduced to the fields a frame is identified by. *)
Record Frame := mkFrame {
  PC : N;
  Function : string;
  File : string;
  Line : Z
}.

Definition Package (f : Frame) : string :=
  if Strings.HasPrefix (Function f) "go." || Strings.HasPrefix (Function f) "type."
  then ""
  else
    let pathend := Strings.LastIndex (Function f) "/" in
    let i := Strings.Index (Strings.slice_from (Function f) (pathend + 1)) "." in
    if negb (Z.eqb i (-1))
    then Strings.slice (Function f) (pathend + 1) (pathend + 1 + i)
    else "".

Definition FuncName (f : Frame) : string :=
  let i := Strings.LastIndex (Function f) "." in
  if negb (Z.eqb i (-1))
  then Strings.slice_from (Function f) (i + 1)
  else Function f.

Definition frame_of (fn : string) : Frame :=
  {| PC := 0%N; Function := fn; File := ""; Line := 0 |}.

(** ** errors.go: the data model

    Error values live on the heap and are handled through pointers; maps are
    reference values. Both heaps are lists indexed by the address, a new
    object goes to the end. *)

Abbreviation loc := nat.

(** A value of the interface type [error]: the nil interface, a [*baseError],
    or an error of a type defined elsewhere. A foreign error is identified by
    [id] (pointer identity), shows [text] as its [Error()] and returns
    [inner] from [Unwrap()] ([nil_error] when it wraps nothing); foreign
    types with [Is]/[As] methods of their own, or that wrap several errors,
    are not part of the model. *)
Inductive error : Type :=
| nil_error
| base (p : loc)
| foreign (id : nat) (text : string) (inner : error).

(** Go's [Metadata] is [map[string]interface{}]: a reference to a map object
    ([None] is the nil map). *)
Abbreviation Metadata := (option loc).

(** Non-error dynamic values that an [interface{}] holds here. A nested
    [Metadata] is a reference, as every Go map is. *)
Inductive value : Type :=
| VString (s : string)
| VInt (n : Z)
| VBool (b : bool)
| VMap (m : Metadata).

(** [interface{}]; the nil interface is [any_error nil_error]. *)
Inductive any : Type :=
| any_error (e : error)
| any_value (v : value).

Definition any_nil : any := any_error nil_error.

(** [type StackTrace []Frame]; [None] is the nil slice. *)
Abbreviation StackTrace := (option (list Frame)).

Definition frames (s : StackTrace) : list Frame := default [] s.

Record baseError := mkBaseError {
  cause : error;
  msg : string;
  typeStr : string;
  stacktrace : StackTrace;
  metadata : Metadata
}.

Record state := mkState {
  errs : list baseError;
  maps : list (gmap string any)
}.

#[global] Instance error_eq_dec : EqDecision error.
Proof. solve_decision. Defined.

(** Allocation of a [baseError] ([&baseError{...}]) and of a map
    ([Metadata{}]); writes through a pointer and into a map. *)
Definition alloc_error (st : state) (e : baseError) : loc * state :=
  (length (errs st), {| errs := errs st ++ [e]; maps := maps st |}).

Definition make_map (st : state) (m : gmap string any) : loc * state :=
  (length (maps st), {| errs := errs st; maps := maps st ++ [m] |}).

Definition store_error (st : state) (p : loc) (e : baseError) : state :=
  {| errs := <[p := e]> (errs st); maps := maps st |}.

Definition store_map (st : state) (r : loc) (m : gmap string any) : state :=
  {| errs := errs st; maps := <[r := m]> (maps st) |}.

(** Assignment to one field through a pointer: [e.stacktrace = s] and
    [e.metadata = m]. *)
Definition set_stacktrace (e : baseError) (s : StackTrace) : baseError :=
  {| cause := cause e; msg := msg e; typeStr := typeStr e;
     stacktrace := s; metadata := metadata e |}.

Definition set_metadata (e : baseError) (m : Metadata) : baseError :=
  {| cause := cause e; msg := msg e; typeStr := typeStr e;
     stacktrace := stacktrace e; metadata := m |}.

(** The map a [Metadata] value refers to; the nil map reads as empty. *)
Definition read_map (st : state) (m : Metadata) : option (gmap string any) :=
  match m with
  | None => Some ∅
  | Some r => maps st !! r
  end.

(** [errors.As(err, &baseErr)] with [baseErr] of type [*baseError]: the first
    [*baseError] on the chain of [err], found by unwrapping foreign errors.
    Modelled from the documentation of [errors.As] quoted in errors.go. *)
Fixpoint As (err : error) : option loc :=
  match err with
  | nil_error => None
  | base p => Some p
  | foreign _ _ inner => As inner
  end.

(** [getStack(skip)]. [callers] are the frames the runtime reports for the
    call stack, starting at the caller of the exported function that calls
    [getStack] ([runtime.Callers(3, ...)]), one frame per program counter.
    At most 32 program counters are read, and the loop leaves at the frame
    reported with [more == false] before appending it, so the last frame read
    is dropped. The package only ever passes [skip = 0]. *)
Definition getStack (callers : list Frame) (skip : nat) : StackTrace :=
  let pcs := take 32 callers in
  let stack := removelast pcs in
  if Nat.leb skip (length stack) then Some (drop skip stack) else Some stack.

(** [reflect.TypeOf(e).String()] for [e : *baseError]. *)
Definition reflect_type_name : string := "*errors.baseError".

(** [s[n:]] on a slice: panics ([None]) unless [n <= len(s)]; the nil slice
    stays nil. *)
Definition reslice_from (s : StackTrace) (n : nat) : option StackTrace :=
  if Nat.leb n (length (frames s)) then Some (drop n <$> s) else None.

(** ** The second errors.go (no metadata, no [NewSentinel]) *)

Module NoMeta.

Record baseError := mkBaseError {
  cause : error;
  msg : string;
  typeStr : string;
  stacktrace : StackTrace
}.

Abbreviation state := (list baseError).

Definition set_stacktrace (e : baseError) (s : StackTrace) : baseError :=
  {| cause := cause e; msg := msg e; typeStr := typeStr e; stacktrace := s |}.

Definition alloc_error (st : state) (e : baseError) : loc * state :=
  (length st, st ++ [e]).

(** [e.stacktrace[0]] is not guarded here: an empty trace panics ([None]).
    Running out of [fuel] is [None] as well. *)
Fixpoint Error (fuel : nat) (st : state) (err : error) : option string :=
  match fuel with
  | O => None
  | S n =>
    match err with
    | nil_error => None
    | foreign _ text _ => Some text
    | base p =>
      e ← st !! p;
      topStack ← frames (stacktrace e) !! 0%nat;
      let m := Package topStack +:+ "." +:+ FuncName topStack +:+ " " +:+ msg e in
      let m := if decide (typeStr e ≠ "") then "[" +:+ typeStr e +:+ "] " +:+ m else m in
      if decide (cause e ≠ nil_error)
      then c ← Error n st (cause e); Some (m +:+ ": " +:+ c)
      else Some m
    end
  end.

(** The argument is tested with a type assertion, not with [As]. *)
Definition SentinelWithStack (st : state) (callers : list Frame) (err : error)
  : option (loc * state) :=
  match err with
  | base p =>
    e ← st !! p;
    let st := <[p := set_stacktrace e None]> st in
    Some (alloc_error st {| cause := cause e; msg := msg e; typeStr := typeStr e;
                            stacktrace := getStack callers 0 |})
  | _ =>
    Some (alloc_error st {| cause := err; msg := ""; typeStr := "";
                            stacktrace := getStack callers 0 |})
  end.

(** [errors.Is] over this heap (see [Is] below). *)
Fixpoint Is_loop (fuel : nat) (st : state) (err target : error) : option bool :=
  match fuel with
  | O => None
  | S n =>
    if decide (err = target) then Some true
    else match err with
         | nil_error => Some false
         | base p =>
           e ← st !! p;
           if decide (cause e = nil_error) then Some false
           else Is_loop n st (cause e) target
         | foreign _ _ inner =>
           if decide (inner = nil_error) then Some false
           else Is_loop n st inner target
         end
  end.

Definition Is (fuel : nat) (st : state) (err target : error) : option bool :=
  if decide (target = nil_error) then Some (bool_decide (err = target))
  else Is_loop fuel st err target.

(** The other operations of this file. [W] and [Wrap] test their argument
    with a type assertion, so only an argument that is a [*baseError] itself
    hands its tag on; [WrapWithType] reads nothing of its argument. *)

Definition Unwrap (st : state) (p : loc) : option error := cause <$> st !! p.

Definition StackTrace_ (st : state) (p : loc) : option StackTrace :=
  stacktrace <$> st !! p.

Definition Type_ (st : state) (p : loc) : option string :=
  e ← st !! p;
  Some (if decide (typeStr e ≠ "") then typeStr e else reflect_type_name).

Section Constructors.

Variable Sprintf : string → list any → string.

Definition New (st : state) (callers : list Frame) (msg : string) (args : list any)
  : loc * state :=
  let msg := Sprintf msg args in
  alloc_error st {| cause := nil_error; msg := msg; typeStr := "";
                    stacktrace := getStack callers 0 |}.

Definition W (st : state) (callers : list Frame) (err : error)
  : option (loc * state) :=
  match err with
  | base b =>
    baseErr ← st !! b;
    Some (alloc_error st {| cause := err; msg := ""; typeStr := typeStr baseErr;
                            stacktrace := getStack callers 0 |})
  | _ =>
    Some (alloc_error st {| cause := err; msg := ""; typeStr := "";
                            stacktrace := getStack callers 0 |})
  end.

Definition Wrap (st : state) (callers : list Frame) (err : error)
    (msg : string) (args : list any) : option (loc * state) :=
  let msg := Sprintf msg args in
  match err with
  | base b =>
    baseErr ← st !! b;
    Some (alloc_error st {| cause := err; msg := msg; typeStr := typeStr baseErr;
                            stacktrace := getStack callers 0 |})
  | _ =>
    Some (alloc_error st {| cause := err; msg := msg; typeStr := "";
                            stacktrace := getStack callers 0 |})
  end.

Definition NewWithType (st : state) (callers : list Frame) (msg typeStr : string)
    (args : list any) : loc * state :=
  let msg := Sprintf msg args in
  alloc_error st {| cause := nil_error; msg := msg; typeStr := typeStr;
                    stacktrace := getStack callers 0 |}.

Definition WrapWithType (st : state) (callers : list Frame) (err : error)
    (msg typeStr : string) (args : list any) : loc * state :=
  let msg := Sprintf msg args in
  alloc_error st {| cause := err; msg := msg; typeStr := typeStr;
                    stacktrace := getStack callers 0 |}.

End Constructors.

(** The part of the display string an error of this file contributes itself,
    given the top frame of its trace. *)
Definition own_display (e : baseError) (topStack : Frame) : string :=
  let m := Package topStack +:+ "." +:+ FuncName topStack +:+ " " +:+ msg e in
  if decide (typeStr e ≠ "") then "[" +:+ typeStr e +:+ "] " +:+ m else m.

(** Heaps of this file on which [Error()] cannot panic: every trace has a
    frame, and a cause that is a [*baseError] is older than its wrapper. *)
Definition traced (st : state) : Prop :=
  ∀ p e, st !! p = Some e →
    frames (stacktrace e) ≠ [] ∧ (∀ q, cause e = base q → (q < p)%nat).

End NoMeta.

(** ** errors.go and recover.go: the operations *)

(** [fmt.Sprintf] for a format without verbs and no arguments returns the
    format itself; that is all the development needs to know about it. *)
Definition verbatim (format : string) : bool := negb (Strings.has_byte "%" format).

(** An instance of the formatter to run the operations on examples: it
    returns its format and ignores the arguments, which is what [fmt.Sprintf]
    does for a verbatim format without arguments. It does not expand verbs. *)
Definition plain_Sprintf (format : string) (args : list any) : string := format.

Section Errors.

(** [fmt.Sprintf], which is not part of the package. *)
Variable Sprintf : string → list any → string.

Hypothesis Sprintf_verbatim :
  ∀ format, verbatim format = true → Sprintf format [] = format.

(** *** Methods of [*baseError] *)

Definition Unwrap (st : state) (p : loc) : option error := cause <$> errs st !! p.

Definition StackTrace_ (st : state) (p : loc) : option StackTrace :=
  stacktrace <$> errs st !! p.

Definition Type_ (st : state) (p : loc) : option string :=
  e ← errs st !! p;
  Some (if decide (typeStr e ≠ "") then typeStr e else reflect_type_name).

(** The context of the display string: the type tag, the top frame, or both
    joined by [@]. *)
Definition contextMsg (e : baseError) : string :=
  let contextMsg := if decide (typeStr e ≠ "") then typeStr e else "" in
  match frames (stacktrace e) with
  | topStack :: _ =>
    if decide (contextMsg ≠ "")
    then typeStr e +:+ "@" +:+ Package topStack +:+ "." +:+ FuncName topStack
    else Package topStack +:+ "." +:+ FuncName topStack
  | [] => contextMsg
  end.

(** [err.Error()]. [None] when [fuel] runs out, and for the panic of a call
    through a nil interface or a nil pointer. *)
Fixpoint Error (fuel : nat) (st : state) (err : error) : option string :=
  match fuel with
  | O => None
  | S n =>
    match err with
    | nil_error => None
    | foreign _ text _ => Some text
    | base p =>
      e ← errs st !! p;
      let m := if decide (contextMsg e ≠ "") then contextMsg e else "" in
      let m := if decide (msg e ≠ "") then "[" +:+ m +:+ "] " +:+ msg e else m in
      if decide (cause e ≠ nil_error)
      then c ← Error n st (cause e); Some (m +:+ " => " +:+ c)
      else Some m
    end
  end.

(** [e.WithMetadata(meta)]: returns [e] itself. The loop
    [for k, v := range meta { e.metadata[k] = v }] is a fold over [meta]. *)
Definition merge_into (old upd : gmap string any) : gmap string any :=
  map_fold (λ k v acc, <[k := v]> acc) old upd.

Definition WithMetadata (st : state) (p : loc) (meta : Metadata)
  : option (loc * state) :=
  e ← errs st !! p;
  match metadata e with
  | None =>
    Some (p, store_error st p (set_metadata e meta))
  | Some r =>
    old ← maps st !! r;
    upd ← read_map st meta;
    Some (p, store_map st r (merge_into old upd))
  end.

(** *** Constructors *)

Definition New (st : state) (callers : list Frame) (msg : string) (args : list any)
  : loc * state :=
  let msg := Sprintf msg args in
  let '(m, st) := make_map st ∅ in
  alloc_error st {| cause := nil_error; msg := msg; typeStr := "";
                    stacktrace := getStack callers 0; metadata := Some m |}.

Definition W (st : state) (callers : list Frame) (err : error)
  : option (loc * state) :=
  match As err with
  | Some b =>
    baseErr ← errs st !! b;
    Some (alloc_error st {| cause := err; msg := ""; typeStr := typeStr baseErr;
                            stacktrace := getStack callers 0;
                            metadata := metadata baseErr |})
  | None =>
    let '(m, st) := make_map st ∅ in
    Some (alloc_error st {| cause := err; msg := ""; typeStr := "";
                            stacktrace := getStack callers 0; metadata := Some m |})
  end.

Definition Wrap (st : state) (callers : list Frame) (err : error)
    (msg : string) (args : list any) : option (loc * state) :=
  let msg := Sprintf msg args in
  match As err with
  | Some b =>
    baseErr ← errs st !! b;
    Some (alloc_error st {| cause := err; msg := msg; typeStr := typeStr baseErr;
                            stacktrace := getStack callers 0;
                            metadata := metadata baseErr |})
  | None =>
    let '(m, st) := make_map st ∅ in
    Some (alloc_error st {| cause := err; msg := msg; typeStr := "";
                            stacktrace := getStack callers 0; metadata := Some m |})
  end.

Definition NewWithType (st : state) (callers : list Frame) (msg typeStr : string)
    (args : list any) : loc * state :=
  let msg := Sprintf msg args in
  let '(m, st) := make_map st ∅ in
  alloc_error st {| cause := nil_error; msg := msg; typeStr := typeStr;
                    stacktrace := getStack callers 0; metadata := Some m |}.

(** [GetMetadata(err)] returns [&baseErr.metadata]: the address of the
    metadata field of the [baseError] at the returned location, or the nil
    pointer ([Some None]). *)
Definition GetMetadata (st : state) (err : error) : option (option loc) :=
  match As err with
  | Some b => _ ← errs st !! b; Some (Some b)
  | None => Some None
  end.

(** [*metaPtr] *)
Definition load_metadata (st : state) (metaPtr : loc) : option Metadata :=
  metadata <$> errs st !! metaPtr.

Definition WrapWithType (st : state) (callers : list Frame) (err : error)
    (msg typeStr : string) (args : list any) : option (loc * state) :=
  let msg := Sprintf msg args in
  metaPtr ← GetMetadata st err;
  let '(m, st) := make_map st ∅ in
  meta ← match metaPtr with
         | Some ptr => load_metadata st ptr
         | None => Some (Some m)
         end;
  Some (alloc_error st {| cause := err; msg := msg; typeStr := typeStr;
                          stacktrace := getStack callers 0; metadata := meta |}).

Definition NewSentinel (st : state) (typeStr msg : string) : loc * state :=
  let '(m, st) := make_map st ∅ in
  alloc_error st {| cause := nil_error; msg := msg; typeStr := typeStr;
                    stacktrace := None; metadata := Some m |}.

Definition SentinelWithStack (st : state) (callers : list Frame) (err : error)
  : option (loc * state) :=
  match As err with
  | Some b =>
    baseErr ← errs st !! b;
    let st := store_error st b (set_stacktrace baseErr None) in
    Some (alloc_error st {| cause := base b; msg := msg baseErr;
                            typeStr := typeStr baseErr;
                            stacktrace := getStack callers 0;
                            metadata := metadata baseErr |})
  | None =>
    let '(m, st) := make_map st ∅ in
    Some (alloc_error st {| cause := err; msg := ""; typeStr := "";
                            stacktrace := getStack callers 0; metadata := Some m |})
  end.

(** *** [errors.Is]

    Modelled from the documentation of [errors.Is] quoted in errors.go: the
    chain of [err] is walked with [Unwrap] until an error equal to [target]
    is met. [*baseError] has no [Is] method. *)
Fixpoint Is_loop (fuel : nat) (st : state) (err target : error) : option bool :=
  match fuel with
  | O => None
  | S n =>
    if decide (err = target) then Some true
    else match err with
         | nil_error => Some false
         | base p =>
           e ← errs st !! p;
           if decide (cause e = nil_error) then Some false
           else Is_loop n st (cause e) target
         | foreign _ _ inner =>
           if decide (inner = nil_error) then Some false
           else Is_loop n st inner target
         end
  end.

Definition Is (fuel : nat) (st : state) (err target : error) : option bool :=
  if decide (target = nil_error) then Some (bool_decide (err = target))
  else Is_loop fuel st err target.

(** *** recover.go *)

(** [baseErr.stacktrace = baseErr.stacktrace[2:]] *)
Definition trim2 (st : state) (p : loc) : option state :=
  e ← errs st !! p;
  s ← reslice_from (stacktrace e) 2;
  Some (store_error st p (set_stacktrace e s)).

(** [RecoverPanic(r, errPtr)]; [slot] is [*errPtr] before the call, the
    result carries [*errPtr] after it. [callers] starts at the frame of
    [RecoverPanic] itself, which is the caller of [Wrap] and [New]. *)
Definition RecoverPanic (st : state) (callers : list Frame) (r : any) (slot : error)
  : option (error * state) :=
  '(err, st) ←
    match r with
    | any_error nil_error => Some (nil_error, st)
    | any_error (base p) => Some (base p, st)
    | any_error panicErr =>
      '(baseErr, st) ← Wrap st callers panicErr "caught panic" [];
      st ← trim2 st baseErr;
      Some (base baseErr, st)
    | any_value _ =>
      let '(baseErr, st) := New st callers (Sprintf "caught panic: %v" [r]) [] in
      st ← trim2 st baseErr;
      Some (base baseErr, st)
    end;
  if decide (err ≠ nil_error) then Some (err, st) else Some (slot, st).

(** *** Derived notions used to state the properties *)

(** The metadata an error exposes: the map behind [*GetMetadata(err)].
    [None] when [GetMetadata] returns the nil pointer (or panics). *)
Definition exposed_metadata (st : state) (err : error) : option (gmap string any) :=
  metaPtr ← GetMetadata st err;
  ptr ← metaPtr;
  m ← load_metadata st ptr;
  read_map st m.

(** [Wrap] applied once per layer, innermost layer first; a layer is the call
    stack of the call, its message and its format arguments. *)
Fixpoint wrap_layers (st : state) (err : error)
    (layers : list (list Frame * string * list any)) : option (error * state) :=
  match layers with
  | [] => Some (err, st)
  | (callers, msg, args) :: layers =>
    '(w, st) ← Wrap st callers err msg args;
    wrap_layers st (base w) layers
  end.

(** An error value is valid in a heap when the [*baseError] its chain leads
    to is allocated (Go has no dangling pointers; this excludes a nil
    [*baseError] stored in an interface). *)
Definition valid (st : state) (err : error) : Prop :=
  ∀ b, As err = Some b → is_Some (errs st !! b).

(** Heaps the package builds: a cause is older than the error that wraps it,
    and every error has a metadata map. *)
Definition wf (st : state) : Prop :=
  ∀ p e, errs st !! p = Some e →
    (∀ b, As (cause e) = Some b → (b < p)%nat) ∧
    (∃ r, metadata e = Some r ∧ is_Some (maps st !! r)).

Definition empty_state : state := {| errs := []; maps := [] |}.

(** [st'] is [st] with one more error, at [w], and possibly more maps: nothing
    that was in [st] has changed. *)
Definition allocates (st st' : state) (w : loc) : Prop :=
  errs st !! w = None ∧ is_Some (errs st' !! w) ∧
  (∀ p e, errs st !! p = Some e → errs st' !! p = Some e) ∧
  (∀ r m, maps st !! r = Some m → maps st' !! r = Some m).

(** The part of the display string an error contributes itself, before the
    arrow and the display string of its cause. *)
Definition own_display (e : baseError) : string :=
  if decide (msg e ≠ "") then "[" +:+ contextMsg e +:+ "] " +:+ msg e
  else contextMsg e.

(** The display string as the specification words it,
    [[typeTag@]package.function [message] [=> cause.Error()]]: the context,
    then the message appended in brackets, then the arrow and the cause. It is
    compared with [Error] below. *)
Fixpoint Error_as_specified (fuel : nat) (st : state) (err : error) : option string :=
  match fuel with
  | O => None
  | S n =>
    match err with
    | nil_error => None
    | foreign _ text _ => Some text
    | base p =>
      e ← errs st !! p;
      let m := contextMsg e in
      let m := if decide (msg e ≠ "") then m +:+ " [" +:+ msg e +:+ "]" else m in
      if decide (cause e ≠ nil_error)
      then c ← Error_as_specified n st (cause e); Some (m +:+ " => " +:+ c)
      else Some m
    end
  end.

(** [sym] is the path-free symbol of [fn]: what follows its last slash. *)
Definition path_free_symbol (fn sym : string) : Prop :=
  Strings.has_byte "/" sym = false ∧ (fn = sym ∨ ∃ dir, fn = dir +:+ "/" +:+ sym).

(** Symbols the compiler makes up. *)
Definition reserved (fn : string) : bool :=
  Strings.HasPrefix fn "go." || Strings.HasPrefix fn "type.".

(** [Package()] as the specification words it: the part of the path-free
    symbol before its last dot, and nothing for a reserved symbol. It is
    compared with [Package] below. *)
Definition Package_as_specified (f : Frame) : string :=
  if reserved (Function f) then ""
  else
    let sym := Strings.slice_from (Function f)
                 (Strings.LastIndex (Function f) "/" + 1) in
    let i := Strings.LastIndex sym "." in
    if negb (Z.eqb i (-1)) then Strings.slice sym 0 i else "".

(** *** Data for the examples *)

Definition main_stack : list Frame :=
  [frame_of "main.handle"; frame_of "main.main"; frame_of "runtime.goexit"].

(** The call stack of a package initialiser. *)
Definition init_stack : list Frame :=
  [frame_of "main.init"; frame_of "runtime.main"; frame_of "runtime.goexit"].

(** The call stack inside a deferred function that calls [RecoverPanic]. *)
Definition recover_stack : list Frame :=
  [frame_of "github.com/exactlylabs/go-errors/pkg/errors.RecoverPanic";
   frame_of "main.handle.func1"; frame_of "runtime.gopanic";
   frame_of "main.handle"; frame_of "main.main"; frame_of "runtime.goexit"].

Definition disk_full : baseError :=
  {| cause := nil_error; msg := "disk full"; typeStr := "IOError";
     stacktrace := Some [frame_of "main.save"; frame_of "main.main"];
     metadata := Some 0%nat |}.

(** One error, its metadata (map 0), and a map literal (map 1) that a caller
    is about to pass to [WithMetadata]. *)
Definition example_state : state :=
  {| errs := [disk_full];
     maps := [ {[ "path" := any_value (VString "/tmp/a") ]};
               {[ "attempt" := any_value (VInt 3) ]} ] |}.

(** A foreign error that wraps the error of [example_state]. *)
Definition eof_error : error := foreign 7 "read failed: disk full" (base 0).

Definition NoMeta_example_state : NoMeta.state :=
  [ {| NoMeta.cause := nil_error; NoMeta.msg := "not found";
       NoMeta.typeStr := "NotFound";
       NoMeta.stacktrace := Some [frame_of "main.init"; frame_of "runtime.main"] |} ].

(** ** Properties *)

(** *** The heap *)

Lemma alloc_error_lookup_new (st : state) (e : baseError) :
  errs (alloc_error st e).2 !! (alloc_error st e).1 = Some e.
Proof. cbn. by apply list_lookup_middle. Qed.

Lemma alloc_error_lookup_old (st : state) (e e0 : baseError) (p : loc) :
  errs st !! p = Some e0 → errs (alloc_error st e).2 !! p = Some e0.
Proof. cbn. apply lookup_app_l_Some. Qed.

Lemma alloc_error_fresh (st : state) (e : baseError) (p : loc) :
  is_Some (errs st !! p) → p ≠ (alloc_error st e).1.
Proof. intros H%lookup_lt_is_Some. cbn. lia. Qed.

Lemma make_map_lookup_new (st : state) (m : gmap string any) :
  maps (make_map st m).2 !! (make_map st m).1 = Some m.
Proof. cbn. by apply list_lookup_middle. Qed.

Lemma make_map_lookup_old (st : state) (m m0 : gmap string any) (r : loc) :
  maps st !! r = Some m0 → maps (make_map st m).2 !! r = Some m0.
Proof. cbn. apply lookup_app_l_Some. Qed.

(** The loop of [WithMetadata] computes the union that prefers the update. *)
Lemma merge_into_union (old upd : gmap string any) :
  merge_into old upd = upd ∪ old.
Proof.
  unfold merge_into.
  apply (map_fold_weak_ind (λ acc m, acc = m ∪ old)).
  - by rewrite (left_id_L ∅ (∪)).
  - intros k v m acc _ ->. by rewrite insert_union_l.
Qed.

Lemma merge_into_lookup_upd (old upd : gmap string any) (k : string) (v : any) :
  upd !! k = Some v → merge_into old upd !! k = Some v.
Proof. intros H. rewrite merge_into_union. by apply lookup_union_Some_l. Qed.

Lemma merge_into_lookup_old (old upd : gmap string any) (k : string) :
  upd !! k = None → merge_into old upd !! k = old !! k.
Proof. intros H. rewrite merge_into_union. by apply lookup_union_r. Qed.

(** *** Well-formed heaps are what the package builds *)

Lemma wf_empty_state : wf empty_state.
Proof. intros p e H. by destruct p. Qed.

Lemma wf_make_map (st : state) (m : gmap string any) :
  wf st → wf (make_map st m).2.
Proof.
  intros Hwf p e Hp. destruct (Hwf p e Hp) as [Hc (r & Hr & [m0 Hm0])].
  split; [done|]. exists r. split; [done|].
  exists m0. by apply make_map_lookup_old.
Qed.

Lemma wf_alloc_error (st : state) (e : baseError) :
  wf st →
  valid st (cause e) →
  (∃ r, metadata e = Some r ∧ is_Some (maps st !! r)) →
  wf (alloc_error st e).2.
Proof.
  intros Hwf Hv Hm p e0 Hp. cbn in Hp.
  destruct (decide (p < length (errs st))%nat) as [Hlt|Hge].
  - rewrite lookup_app_l in Hp by done. by apply Hwf.
  - rewrite lookup_app_r in Hp by lia.
    destruct (p - length (errs st))%nat as [|k] eqn:Hk; [|by destruct k].
    cbn in Hp. injection Hp as <-. split; [|done].
    intros b Hb. apply Hv in Hb. apply lookup_lt_is_Some in Hb. lia.
Qed.

Lemma wf_store_error (st : state) (p : loc) (e e' : baseError) :
  wf st → errs st !! p = Some e →
  cause e' = cause e → metadata e' = metadata e →
  wf (store_error st p e').
Proof.
  intros Hwf Hp Hc Hm q e0 Hq. cbn in Hq.
  destruct (decide (p = q)) as [->|Hne].
  - rewrite list_lookup_insert_eq in Hq by (by eapply lookup_lt_Some).
    injection Hq as <-. rewrite Hc, Hm. by apply Hwf.
  - rewrite list_lookup_insert_ne in Hq by done. by apply Hwf.
Qed.

Lemma wf_store_map (st : state) (r : loc) (m : gmap string any) :
  wf st → wf (store_map st r m).
Proof.
  intros Hwf p e Hp. destruct (Hwf p e Hp) as [Hc (r0 & Hr0 & Hm0)].
  split; [done|]. exists r0. split; [done|]. cbn.
  apply lookup_lt_is_Some. rewrite length_insert. by apply lookup_lt_is_Some.
Qed.

Lemma valid_make_map (st : state) (m : gmap string any) (err : error) :
  valid st err → valid (make_map st m).2 err.
Proof. intros Hv b Hb. by apply Hv. Qed.

(** *** What the constructors return *)

Lemma Wrap_on_base (st : state) (callers : list Frame) (err : error)
    (m : string) (args : list any) (b : loc) (e : baseError) :
  As err = Some b → errs st !! b = Some e →
  Wrap st callers err m args =
    Some (alloc_error st {| cause := err; msg := Sprintf m args; typeStr := typeStr e;
                            stacktrace := getStack callers 0; metadata := metadata e |}).
Proof. intros Hb He. unfold Wrap. by rewrite Hb, He. Qed.

Lemma Wrap_on_other (st : state) (callers : list Frame) (err : error)
    (m : string) (args : list any) :
  As err = None →
  Wrap st callers err m args =
    Some (alloc_error (make_map st ∅).2
            {| cause := err; msg := Sprintf m args; typeStr := "";
               stacktrace := getStack callers 0;
               metadata := Some (make_map st ∅).1 |}).
Proof. intros Hb. unfold Wrap. by rewrite Hb. Qed.

Lemma Wrap_total (st : state) (callers : list Frame) (err : error)
    (m : string) (args : list any) :
  valid st err →
  ∃ st' w, Wrap st callers err m args = Some (length (errs st), st') ∧
       errs st' !! length (errs st) = Some w ∧ cause w = err ∧
       msg w = Sprintf m args ∧ stacktrace w = getStack callers 0 ∧
       (∀ p e, errs st !! p = Some e → errs st' !! p = Some e) ∧
       (∀ r m0, maps st !! r = Some m0 → maps st' !! r = Some m0).
Proof.
  intros Hv. destruct (As err) as [b|] eqn:Hb.
  - destruct (Hv b Hb) as [e He]. rewrite (Wrap_on_base _ _ _ _ _ b e) by done.
    do 2 eexists. split; [done|]. cbn.
    split; [by apply list_lookup_middle|].
    repeat split; [|done]. intros p e0. apply lookup_app_l_Some.
  - rewrite Wrap_on_other by done.
    do 2 eexists. split; [done|]. cbn.
    split; [by apply list_lookup_middle|].
    repeat split; intros ? ?; apply lookup_app_l_Some.
Qed.

Lemma Type_lookup (st : state) (p : loc) (e : baseError) :
  errs st !! p = Some e →
  Type_ st p = Some (if decide (typeStr e ≠ "") then typeStr e else reflect_type_name).
Proof. intros H. unfold Type_. by rewrite H. Qed.

(** One layer of [Wrap] hands the tag of the first [*baseError] of the chain
    to the wrapper, which becomes the first [*baseError] of the new chain. *)
Lemma Wrap_keeps_tag (st : state) (callers : list Frame) (err : error)
    (m : string) (args : list any) (b : loc) (e : baseError) :
  As err = Some b → errs st !! b = Some e →
  ∃ w st' e', Wrap st callers err m args = Some (w, st') ∧
    errs st' !! w = Some e' ∧ typeStr e' = typeStr e.
Proof.
  intros Hb He. rewrite (Wrap_on_base _ _ _ _ _ b e) by done.
  do 3 eexists. split; [done|]. split; [apply alloc_error_lookup_new|done].
Qed.

Lemma wrap_layers_keep_tag (layers : list (list Frame * string * list any)) :
  ∀ (st : state) (err : error) (b : loc) (e : baseError),
  As err = Some b → errs st !! b = Some e →
  ∃ w st' p e', wrap_layers st err layers = Some (w, st') ∧
    As w = Some p ∧ errs st' !! p = Some e' ∧ typeStr e' = typeStr e.
Proof.
  induction layers as [|[[callers m] args] layers IH]; intros st err b e Hb He.
  - exists err, st, b, e. done.
  - destruct (Wrap_keeps_tag st callers err m args b e Hb He)
      as (w & st1 & e1 & Hw & He1 & Ht1).
    destruct (IH st1 (base w) w e1 eq_refl He1) as (w' & st' & p & e' & Hl & Hp & He' & Ht').
    exists w', st', p, e'. cbn. rewrite Hw. cbn. rewrite Hl.
    repeat split; [done..|]. congruence.
Qed.

(** C1. Wrapping an error that carries a type tag, without supplying a tag,
    yields an error of the same [Type()]: [Wrap] copies the tag of the first
    [*baseError] on the chain of [err] ([b], which is [err] itself when [err]
    is a [*baseError]), and so does every further layer of [Wrap]. *)
Theorem Wrap_propagates_type (st : state) (callers : list Frame) (err : error)
    (m : string) (args : list any) (b : loc) (T : string)
    (layers : list (list Frame * string * list any)) :
  As err = Some b →
  Type_ st b = Some T →
  (∃ w st', Wrap st callers err m args = Some (w, st') ∧ Type_ st' w = Some T) ∧
  (∃ w st' p, wrap_layers st err layers = Some (w, st') ∧
     As w = Some p ∧ Type_ st' p = Some T).
Proof.
  intros Hb HT. unfold Type_ in HT.
  destruct (errs st !! b) as [e|] eqn:He; [|done]. cbn in HT.
  split.
  - destruct (Wrap_keeps_tag st callers err m args b e Hb He) as (w & st' & e' & Hw & He' & Ht).
    exists w, st'. split; [done|].
    rewrite (Type_lookup _ _ _ He'), Ht. done.
  - destruct (wrap_layers_keep_tag layers st err b e Hb He) as (w & st' & p & e' & Hl & Hp & He' & Ht).
    exists w, st', p. repeat split; [done..|].
    rewrite (Type_lookup _ _ _ He'), Ht. done.
Qed.

(** C2. [Unwrap(Wrap(err, m))] is [err]: the wrapped error is installed as
    the cause of the new error, whatever [err] is (nil, a [*baseError] or a
    foreign error). *)
Theorem Unwrap_Wrap (st : state) (callers : list Frame) (err : error)
    (m : string) (args : list any) :
  valid st err →
  ∃ w st', Wrap st callers err m args = Some (w, st') ∧ Unwrap st' w = Some err.
Proof.
  intros Hv.
  destruct (Wrap_total st callers err m args Hv) as (st' & w & HW & Hw & Hc & _).
  exists (length (errs st)), st'. split; [done|].
  unfold Unwrap. rewrite Hw. cbn. by rewrite Hc.
Qed.

(** *** Metadata *)

Lemma exposed_metadata_on_base (st : state) (err : error) (b : loc) (e : baseError) :
  As err = Some b → errs st !! b = Some e →
  exposed_metadata st err = read_map st (metadata e).
Proof.
  intros Hb He. unfold exposed_metadata, GetMetadata, load_metadata.
  rewrite Hb, He. cbn. by rewrite He.
Qed.

Lemma exposed_metadata_inv (st : state) (err : error) (M : gmap string any) :
  exposed_metadata st err = Some M →
  ∃ b e, As err = Some b ∧ errs st !! b = Some e ∧ read_map st (metadata e) = Some M.
Proof.
  unfold exposed_metadata, GetMetadata, load_metadata. intros H.
  destruct (As err) as [b|]; [|done].
  destruct (errs st !! b) as [e|] eqn:He; [|done].
  cbn in H. rewrite He in H. by exists b, e.
Qed.

Lemma WithMetadata_on_map (st : state) (p : loc) (meta : Metadata)
    (e : baseError) (r : loc) (old upd : gmap string any) :
  errs st !! p = Some e → metadata e = Some r → maps st !! r = Some old →
  read_map st meta = Some upd →
  WithMetadata st p meta = Some (p, store_map st r (merge_into old upd)).
Proof.
  intros He Hr Hold Hupd. unfold WithMetadata.
  rewrite He. cbn. rewrite Hr, Hold. cbn. by rewrite Hupd.
Qed.

Lemma WithMetadata_on_nil (st : state) (p : loc) (meta : Metadata) (e : baseError) :
  errs st !! p = Some e → metadata e = None →
  WithMetadata st p meta = Some (p, store_error st p (set_metadata e meta)).
Proof. intros He Hr. unfold WithMetadata. rewrite He. cbn. by rewrite Hr. Qed.

(** After a write into the map [r], every error whose metadata is [r] exposes
    the new contents. *)
Lemma exposed_metadata_store_map (st : state) (r : loc) (M : gmap string any)
    (err : error) (b : loc) (e : baseError) :
  As err = Some b → errs st !! b = Some e → metadata e = Some r →
  is_Some (maps st !! r) →
  exposed_metadata (store_map st r M) err = Some M.
Proof.
  intros Hb He Hr Hm.
  rewrite (exposed_metadata_on_base _ _ b e) by done.
  rewrite Hr. cbn. apply list_lookup_insert_eq. by apply lookup_lt_is_Some.
Qed.

(** C3. [Wrap] exposes the metadata of the wrapped error, and a following
    [WithMetadata] returns the same error, sets every key of the update to the
    value of the update, keeps every other key as it was, and writes into no
    other map (a nested map given for a key replaces the old value, nothing is
    merged into it). *)
Theorem Wrap_WithMetadata_shallow_merge (st : state) (callers : list Frame)
    (err : error) (m : string) (args : list any) (M1 : gmap string any) :
  exposed_metadata st err = Some M1 →
  ∃ w st1, Wrap st callers err m args = Some (w, st1) ∧
    exposed_metadata st1 (base w) = Some M1 ∧
    ∀ (meta : Metadata) (M2 : gmap string any),
      read_map st1 meta = Some M2 →
      ∃ st2 M, WithMetadata st1 w meta = Some (w, st2) ∧
        exposed_metadata st2 (base w) = Some M ∧
        (∀ k v, M2 !! k = Some v → M !! k = Some v) ∧
        (∀ k, M2 !! k = None → M !! k = M1 !! k) ∧
        (∀ r, load_metadata st1 w ≠ Some (Some r) → maps st2 !! r = maps st1 !! r).
Proof.
  intros (b & e & Hb & He & HM1)%exposed_metadata_inv.
  rewrite (Wrap_on_base _ _ _ _ _ b e) by done.
  set (new := {| cause := err; msg := Sprintf m args; typeStr := typeStr e;
                 stacktrace := getStack callers 0; metadata := metadata e |}).
  pose proof (alloc_error_lookup_new st new) as Hnew.
  destruct (alloc_error st new) as [w st1] eqn:Halloc.
  assert (maps st1 = maps st) as Hmaps by (by injection Halloc as _ <-).
  cbn in Hnew. exists w, st1. split; [done|].
  assert (exposed_metadata st1 (base w) = Some M1) as Hexp.
  { rewrite (exposed_metadata_on_base _ _ w new) by done.
    destruct (metadata e) as [r|]; cbn in *; [by rewrite Hmaps|done]. }
  split; [done|]. intros meta M2 HM2.
  assert (load_metadata st1 w = Some (metadata e)) as Hload
    by (unfold load_metadata; by rewrite Hnew).
  rewrite Hload.
  destruct (metadata e) as [r|] eqn:Hr.
  - cbn in HM1. rewrite <- Hmaps in HM1.
    rewrite (WithMetadata_on_map _ _ _ new r M1 M2) by done.
    eexists _, (merge_into M1 M2). split; [done|].
    split; [by apply (exposed_metadata_store_map _ _ _ _ w new)|].
    split; [intros k v; apply merge_into_lookup_upd|].
    split; [intros k; apply merge_into_lookup_old|].
    intros r' Hne. cbn. apply list_lookup_insert_ne. congruence.
  - rewrite (WithMetadata_on_nil _ _ _ new) by done.
    eexists _, M2. split; [done|]. cbn in HM1. injection HM1 as <-.
    split.
    { rewrite (exposed_metadata_on_base _ _ w (set_metadata new meta)); [done..|].
      cbn. apply list_lookup_insert_eq. by eapply lookup_lt_Some. }
    split; [done|]. split; [|done].
    intros k Hk. by rewrite Hk, lookup_empty.
Qed.

Lemma W_on_base (st : state) (callers : list Frame) (err : error)
    (b : loc) (e : baseError) :
  As err = Some b → errs st !! b = Some e →
  W st callers err =
    Some (alloc_error st {| cause := err; msg := ""; typeStr := typeStr e;
                            stacktrace := getStack callers 0; metadata := metadata e |}).
Proof. intros Hb He. unfold W. by rewrite Hb, He. Qed.

Lemma WrapWithType_on_base (st : state) (callers : list Frame) (err : error)
    (m ty : string) (args : list any) (b : loc) (e : baseError) :
  As err = Some b → errs st !! b = Some e →
  WrapWithType st callers err m ty args =
    Some (alloc_error (make_map st ∅).2
            {| cause := err; msg := Sprintf m args; typeStr := ty;
               stacktrace := getStack callers 0; metadata := metadata e |}).
Proof.
  intros Hb He. unfold WrapWithType, GetMetadata, load_metadata.
  rewrite Hb, He. cbn. by rewrite He.
Qed.

Lemma WrapWithType_on_other (st : state) (callers : list Frame) (err : error)
    (m ty : string) (args : list any) :
  As err = None →
  WrapWithType st callers err m ty args =
    Some (alloc_error (make_map st ∅).2
            {| cause := err; msg := Sprintf m args; typeStr := ty;
               stacktrace := getStack callers 0;
               metadata := Some (make_map st ∅).1 |}).
Proof. intros Hb. unfold WrapWithType, GetMetadata. by rewrite Hb. Qed.

(** A wrapper allocated with the metadata field of an existing error shares
    that error's map: a [WithMetadata] on the wrapper shows through every
    error whose metadata is that map. *)
Lemma wrapper_shares_map (st0 : state) (new : baseError) (b : loc) (e : baseError) :
  (∀ p e', errs st0 !! p = Some e' →
     ∃ r, metadata e' = Some r ∧ is_Some (maps st0 !! r)) →
  errs st0 !! b = Some e →
  metadata new = metadata e →
  ∃ r M1,
    load_metadata (alloc_error st0 new).2 (alloc_error st0 new).1 = Some (Some r) ∧
    load_metadata (alloc_error st0 new).2 b = Some (Some r) ∧
    maps (alloc_error st0 new).2 !! r = Some M1 ∧
    ∀ (meta : Metadata) (M2 : gmap string any),
      read_map (alloc_error st0 new).2 meta = Some M2 →
      ∃ st2,
        WithMetadata (alloc_error st0 new).2 (alloc_error st0 new).1 meta
          = Some ((alloc_error st0 new).1, st2) ∧
        maps st2 !! r = Some (M2 ∪ M1) ∧
        ∀ err p e', As err = Some p → errs (alloc_error st0 new).2 !! p = Some e' →
          metadata e' = Some r → exposed_metadata st2 err = Some (M2 ∪ M1).
Proof.
  intros Hmeta He Hnew.
  destruct (Hmeta b e He) as (r & Hr & [M1 HM1]).
  pose proof (alloc_error_lookup_new st0 new) as Hw.
  pose proof (alloc_error_lookup_old st0 new e b He) as Hb.
  destruct (alloc_error st0 new) as [w st1] eqn:Halloc. cbn [fst snd] in *.
  assert (maps st1 = maps st0) as Hmaps by (by injection Halloc as _ <-).
  exists r, M1. unfold load_metadata. rewrite Hw, Hb. cbn.
  rewrite Hnew, Hr, Hmaps. repeat split; [done|].
  intros meta M2 HM2.
  rewrite (WithMetadata_on_map _ _ _ new r M1 M2); [|done|congruence|congruence|done].
  eexists. split; [done|]. rewrite <- merge_into_union.
  split.
  - cbn. apply list_lookup_insert_eq. rewrite Hmaps. by eapply lookup_lt_Some.
  - intros err p e' Hp He' Hr'.
    apply (exposed_metadata_store_map _ _ _ _ p e'); [done..|].
    rewrite Hmaps. by exists M1.
Qed.

Lemma wf_metadata (st : state) :
  wf st →
  ∀ p e, errs st !! p = Some e → ∃ r, metadata e = Some r ∧ is_Some (maps st !! r).
Proof. intros Hwf p e He. by destruct (Hwf p e He). Qed.

(** C10. [Wrap] and [W] put the very map of the wrapped [*baseError] into the
    wrapper: after [WithMetadata] on the wrapper, the wrapped error (and every
    error holding that map) exposes the merged map. *)
Theorem Wrap_shares_metadata_map (st : state) (callers : list Frame) (e : loc)
    (m : string) (args : list any) (wrapped : option (loc * state)) :
  wf st →
  is_Some (errs st !! e) →
  wrapped = Wrap st callers (base e) m args ∨ wrapped = W st callers (base e) →
  ∃ w st1 r M1, wrapped = Some (w, st1) ∧ w ≠ e ∧
    load_metadata st1 w = Some (Some r) ∧
    load_metadata st1 e = Some (Some r) ∧
    exposed_metadata st1 (base e) = Some M1 ∧
    ∀ (meta : Metadata) (M2 : gmap string any),
      read_map st1 meta = Some M2 →
      ∃ st2, WithMetadata st1 w meta = Some (w, st2) ∧
        exposed_metadata st2 (base e) = Some (M2 ∪ M1) ∧
        exposed_metadata st2 (base w) = Some (M2 ∪ M1) ∧
        ∀ err p e', As err = Some p → errs st1 !! p = Some e' →
          metadata e' = Some r → exposed_metadata st2 err = Some (M2 ∪ M1).
Proof.
  intros Hwf [be He] Hwrapped.
  assert (∃ new, wrapped = Some (alloc_error st new) ∧ metadata new = metadata be)
    as (new & -> & Hnew).
  { destruct Hwrapped as [->| ->].
    - rewrite (Wrap_on_base _ _ _ _ _ e be) by done. by eexists.
    - rewrite (W_on_base _ _ _ e be) by done. by eexists. }
  destruct (wrapper_shares_map st new e be (wf_metadata st Hwf) He Hnew)
    as (r & M1 & Hlw & Hle & HM1 & Hwith).
  pose proof (alloc_error_fresh st new e (mk_is_Some _ _ He)) as Hfresh.
  pose proof (alloc_error_lookup_new st new) as Hw.
  pose proof (alloc_error_lookup_old st new be e He) as Hb.
  destruct (alloc_error st new) as [w st1]. cbn [fst snd] in *.
  exists w, st1, r, M1. split; [done|]. split; [done|].
  do 2 (split; [done|]).
  assert (metadata be = Some r) as Hr.
  { unfold load_metadata in Hle. rewrite Hb in Hle. by injection Hle. }
  split.
  { rewrite (exposed_metadata_on_base _ _ e be) by done. by rewrite Hr. }
  intros meta M2 HM2. destruct (Hwith meta M2 HM2) as (st2 & HW & _ & Hall).
  exists st2. split; [done|].
  split; [by apply (Hall (base e) e be)|].
  split; [|done]. apply (Hall (base w) w new); [done..|congruence].
Qed.

(** An error allocated together with a new empty map is the only holder of
    that map: the map was not in the heap before, no other error refers to
    it, and a [WithMetadata] on the error shows on no error that was in the
    heap before. *)
Lemma fresh_map_is_own (st : state) (new : baseError) :
  wf st →
  metadata new = Some (length (maps st)) →
  maps st !! length (maps st) = None ∧
  maps (alloc_error (make_map st ∅).2 new).2 !! length (maps st) = Some ∅ ∧
  load_metadata (alloc_error (make_map st ∅).2 new).2
    (alloc_error (make_map st ∅).2 new).1 = Some (Some (length (maps st))) ∧
  exposed_metadata (alloc_error (make_map st ∅).2 new).2
    (base (alloc_error (make_map st ∅).2 new).1) = Some ∅ ∧
  (∀ p e, errs (alloc_error (make_map st ∅).2 new).2 !! p = Some e →
     metadata e = Some (length (maps st)) →
     p = (alloc_error (make_map st ∅).2 new).1) ∧
  ∀ (meta : Metadata) (M2 : gmap string any),
    read_map (alloc_error (make_map st ∅).2 new).2 meta = Some M2 →
    ∃ st2,
      WithMetadata (alloc_error (make_map st ∅).2 new).2
        (alloc_error (make_map st ∅).2 new).1 meta
        = Some ((alloc_error (make_map st ∅).2 new).1, st2) ∧
      exposed_metadata st2 (base (alloc_error (make_map st ∅).2 new).1) = Some M2 ∧
      ∀ err M, exposed_metadata st err = Some M → exposed_metadata st2 err = Some M.
Proof.
  intros Hwf Hm.
  pose proof (alloc_error_lookup_new (make_map st ∅).2 new) as Hnew.
  assert (maps (alloc_error (make_map st ∅).2 new).2 !! length (maps st) = Some ∅)
    as Hmap by (cbn; by apply list_lookup_middle).
  assert (∀ p e, errs st !! p = Some e →
            errs (alloc_error (make_map st ∅).2 new).2 !! p = Some e) as Hold
    by (intros p e; apply (alloc_error_lookup_old (make_map st ∅).2)).
  assert (maps (alloc_error (make_map st ∅).2 new).2 = maps st ++ [∅]) as Hmaps by done.
  assert (errs (alloc_error (make_map st ∅).2 new).2 = errs st ++ [new]) as Herrs by done.
  assert ((alloc_error (make_map st ∅).2 new).1 = length (errs st)) as Hloc by done.
  destruct (alloc_error (make_map st ∅).2 new) as [w st1]. cbn [fst snd] in *.
  split; [by apply lookup_ge_None|].
  split; [done|].
  split. { unfold load_metadata. rewrite Hnew. cbn. by rewrite Hm. }
  split. { rewrite (exposed_metadata_on_base _ _ w new) by done. by rewrite Hm. }
  split.
  { intros p e Hp Hr. rewrite Herrs in Hp.
    destruct (decide (p < length (errs st))%nat) as [Hlt|Hge].
    - rewrite lookup_app_l in Hp by done.
      destruct (wf_metadata st Hwf p e Hp) as (r & Hr' & Hr'').
      apply lookup_lt_is_Some in Hr''. rewrite Hr in Hr'. injection Hr' as <-. lia.
    - apply lookup_lt_Some in Hp. rewrite length_app in Hp. cbn in Hp. lia. }
  intros meta M2 HM2.
  rewrite (WithMetadata_on_map _ _ _ new (length (maps st)) ∅ M2) by done.
  rewrite merge_into_union, (right_id_L ∅ (∪)).
  eexists. split; [done|].
  split.
  { apply (exposed_metadata_store_map _ _ _ _ w new); [done..|]. by eexists. }
  intros err M (b & e & Hb & He & HM)%exposed_metadata_inv.
  destruct (wf_metadata st Hwf b e He) as (r & Hr & Hr').
  rewrite (exposed_metadata_on_base _ _ b e); [|done|by apply Hold].
  rewrite Hr in *. cbn in *. rewrite Hmaps.
  apply lookup_lt_is_Some in Hr'.
  rewrite list_lookup_insert_ne by lia. by apply lookup_app_l_Some.
Qed.

(** C4, as the code has it. [WrapWithType] sets the given type tag and the
    cause, and takes the metadata map of the first [*baseError] on the chain
    of [err] by reference, as [Wrap] does: a [WithMetadata] on the wrapper
    alters the metadata of the wrapped error in the same way. When there is
    no [*baseError] on the chain the wrapper gets a fresh empty map: a map
    that was not in the heap before, that no other error holds, and whose
    updates show on no error that was there before. *)
Theorem WrapWithType_sets_type_shares_map (st : state) (callers : list Frame)
    (err : error) (m ty : string) (args : list any) :
  wf st →
  valid st err →
  ∃ w st1 ew, WrapWithType st callers err m ty args = Some (w, st1) ∧
    errs st1 !! w = Some ew ∧ typeStr ew = ty ∧ cause ew = err ∧
    (ty ≠ "" → Type_ st1 w = Some ty) ∧
    (As err = None →
       exposed_metadata st1 (base w) = Some ∅ ∧
       ∃ r, load_metadata st1 w = Some (Some r) ∧
         maps st !! r = None ∧
         maps st1 !! r = Some ∅ ∧
         (∀ p e, errs st1 !! p = Some e → metadata e = Some r → p = w) ∧
         ∀ (meta : Metadata) (M2 : gmap string any),
           read_map st1 meta = Some M2 →
           ∃ st2, WithMetadata st1 w meta = Some (w, st2) ∧
             exposed_metadata st2 (base w) = Some M2 ∧
             ∀ err' M, exposed_metadata st err' = Some M →
                       exposed_metadata st2 err' = Some M) ∧
    (∀ b, As err = Some b →
       ∃ r M1, load_metadata st1 w = Some (Some r) ∧
         load_metadata st1 b = Some (Some r) ∧
         exposed_metadata st1 err = Some M1 ∧
         ∀ (meta : Metadata) (M2 : gmap string any),
           read_map st1 meta = Some M2 →
           ∃ st2, WithMetadata st1 w meta = Some (w, st2) ∧
             exposed_metadata st2 err = Some (M2 ∪ M1) ∧
             exposed_metadata st2 (base w) = Some (M2 ∪ M1)).
Proof.
  intros Hwf Hv. destruct (As err) as [b|] eqn:Hb.
  - destruct (Hv b Hb) as [e He].
    rewrite (WrapWithType_on_base _ _ _ _ _ _ b e) by done.
    set (new := {| cause := err; msg := Sprintf m args; typeStr := ty;
                   stacktrace := getStack callers 0; metadata := metadata e |}).
    set (st0 := (make_map st ∅).2).
    assert (errs st0 !! b = Some e) as He0 by done.
    destruct (wrapper_shares_map st0 new b e
                (wf_metadata st0 (wf_make_map st ∅ Hwf)) He0 eq_refl)
      as (r & M1 & Hlw & Hle & HM1 & Hwith).
    pose proof (alloc_error_lookup_new st0 new) as Hw.
    pose proof (alloc_error_lookup_old st0 new e b He0) as Hb0.
    destruct (alloc_error st0 new) as [w st1]. cbn [fst snd] in *.
    exists w, st1, new. split; [done|]. split; [done|].
    do 2 (split; [done|]).
    split. { intros Hty. rewrite (Type_lookup _ _ _ Hw). cbn. by rewrite decide_True. }
    split; [done|]. intros b' [= <-].
    assert (metadata e = Some r) as Hr.
    { unfold load_metadata in Hle. rewrite Hb0 in Hle. by injection Hle. }
    exists r, M1. do 2 (split; [done|]).
    split. { rewrite (exposed_metadata_on_base _ _ b e) by done. by rewrite Hr. }
    intros meta M2 HM2. destruct (Hwith meta M2 HM2) as (st2 & HW & _ & Hall).
    exists st2. split; [done|].
    split; [by apply (Hall err b e)|]. by apply (Hall (base w) w new).
  - rewrite WrapWithType_on_other by done.
    set (new := {| cause := err; msg := Sprintf m args; typeStr := ty;
                   stacktrace := getStack callers 0;
                   metadata := Some (make_map st ∅).1 |}).
    destruct (fresh_map_is_own st new Hwf eq_refl)
      as (Hfresh & Hempty & Hload & Hexp & Hsole & Hwith).
    pose proof (alloc_error_lookup_new (make_map st ∅).2 new) as Hw.
    destruct (alloc_error (make_map st ∅).2 new) as [w st1]. cbn [fst snd] in *.
    exists w, st1, new. split; [done|]. split; [done|].
    do 2 (split; [done|]).
    split. { intros Hty. rewrite (Type_lookup _ _ _ Hw). cbn. by rewrite decide_True. }
    split; [|done]. intros _. split; [done|].
    exists (length (maps st)). by repeat split.
Qed.

(** *** Sentinels *)

Lemma getStack_0 (callers : list Frame) :
  getStack callers 0 = Some (removelast (take 32 callers)).
Proof. unfold getStack. cbn. by rewrite drop_0. Qed.

Lemma getStack_0_nonempty (callers : list Frame) :
  (2 ≤ length callers)%nat → frames (getStack callers 0) ≠ [].
Proof.
  intros Hlen. rewrite getStack_0. cbn.
  destruct callers as [|f1 [|f2 callers]]; cbn in Hlen; [lia..|].
  cbn. done.
Qed.

Lemma NewSentinel_eq (st0 : state) (ty m : string) :
  NewSentinel st0 ty m =
    (length (errs st0),
     {| errs := errs st0 ++ [{| cause := nil_error; msg := m; typeStr := ty;
                                stacktrace := None;
                                metadata := Some (length (maps st0)) |}];
        maps := maps st0 ++ [∅] |}).
Proof. done. Qed.

Lemma SentinelWithStack_on_base (st : state) (callers : list Frame) (err : error)
    (b : loc) (e : baseError) :
  As err = Some b → errs st !! b = Some e →
  SentinelWithStack st callers err =
    Some (length (errs st),
          {| errs := <[b := set_stacktrace e None]> (errs st)
                     ++ [{| cause := base b; msg := msg e; typeStr := typeStr e;
                            stacktrace := getStack callers 0;
                            metadata := metadata e |}];
             maps := maps st |}).
Proof.
  intros Hb He. unfold SentinelWithStack. rewrite Hb, He. cbn.
  unfold alloc_error. cbn. by rewrite length_insert.
Qed.

Lemma SentinelWithStack_on_other (st : state) (callers : list Frame) (err : error) :
  As err = None →
  SentinelWithStack st callers err =
    Some (length (errs st),
          {| errs := errs st ++ [{| cause := err; msg := ""; typeStr := "";
                                    stacktrace := getStack callers 0;
                                    metadata := Some (length (maps st)) |}];
             maps := maps st ++ [∅] |}).
Proof. intros Hb. unfold SentinelWithStack. by rewrite Hb. Qed.

(** An error whose cause is the target is matched at the second step. *)
Lemma Is_cause (fuel : nat) (st : state) (r s : loc) (e : baseError) :
  (2 ≤ fuel)%nat → errs st !! r = Some e → cause e = base s →
  Is fuel st (base r) (base s) = Some true.
Proof.
  intros Hfuel He Hc. unfold Is. rewrite decide_False by done.
  destruct fuel as [|[|fuel]]; [lia..|]. cbn.
  destruct (decide (base r = base s)) as [|_]; [done|].
  rewrite He. cbn. rewrite Hc. rewrite decide_False by done.
  by rewrite decide_True.
Qed.

(** What [SentinelWithStack] does to the heap. *)
Lemma SentinelWithStack_effect (st : state) (callers : list Frame) (err : error) :
  valid st err →
  ∃ r st', SentinelWithStack st callers err = Some (r, st') ∧
    errs st !! r = None ∧
    StackTrace_ st' r = Some (getStack callers 0) ∧
    (∀ q m, maps st !! q = Some m → maps st' !! q = Some m) ∧
    (∀ p e, errs st !! p = Some e →
       ∃ e', errs st' !! p = Some e' ∧
         cause e' = cause e ∧ msg e' = msg e ∧ typeStr e' = typeStr e ∧
         metadata e' = metadata e ∧
         stacktrace e' = (if decide (As err = Some p) then None else stacktrace e) ∧
         (stacktrace e = None → e' = e)).
Proof.
  intros Hv.
  assert (∀ l : list baseError, l !! length l = None) as Hnone
    by (intros l; by apply lookup_ge_None).
  destruct (As err) as [b|] eqn:Hb.
  - destruct (Hv b Hb) as [eb Heb].
    rewrite (SentinelWithStack_on_base _ _ _ b eb) by done.
    do 2 eexists. split; [done|]. split; [done|].
    split.
    { unfold StackTrace_. cbn [errs].
      rewrite list_lookup_middle; [done|by rewrite length_insert]. }
    split; [done|].
    intros p e He. exists (if decide (b = p) then set_stacktrace e None else e).
    split.
    { apply lookup_app_l_Some. destruct (decide (b = p)) as [->|Hne].
      - rewrite list_lookup_insert_eq by (by eapply lookup_lt_Some). congruence.
      - by rewrite list_lookup_insert_ne. }
    destruct (decide (b = p)) as [->|Hne].
    + rewrite decide_True by done. repeat split.
      intros Hs. by destruct e; cbn in *; subst.
    + rewrite decide_False by congruence. done.
  - rewrite SentinelWithStack_on_other by done.
    do 2 eexists. split; [done|]. split; [done|].
    split. { unfold StackTrace_. cbn [errs]. by rewrite list_lookup_middle. }
    split. { intros q m. apply lookup_app_l_Some. }
    intros p e He. exists e. split; [by apply lookup_app_l_Some|].
    rewrite decide_False by done. done.
Qed.

(** C6, as the code has it. [SentinelWithStack] returns a new error value
    carrying the fresh trace, writes into no map, and leaves the cause, the
    message, the type tag and the metadata of every existing error as they
    were; it sets the [stacktrace] field of the first [*baseError] on the
    chain of its argument to nil and leaves the other traces alone. An
    argument whose trace is nil already is left unchanged in every field, and
    so a call on a sentinel of [NewSentinel] changes no existing error. *)
Theorem SentinelWithStack_frame :
  (∀ st callers err,
     valid st err →
     ∃ r st', SentinelWithStack st callers err = Some (r, st') ∧
       errs st !! r = None ∧
       StackTrace_ st' r = Some (getStack callers 0) ∧
       (∀ q m, maps st !! q = Some m → maps st' !! q = Some m) ∧
       (∀ p e, errs st !! p = Some e →
          ∃ e', errs st' !! p = Some e' ∧
            cause e' = cause e ∧ msg e' = msg e ∧ typeStr e' = typeStr e ∧
            metadata e' = metadata e ∧
            stacktrace e' = (if decide (As err = Some p) then None else stacktrace e) ∧
            (stacktrace e = None → e' = e))) ∧
  (∀ st0 ty m callers,
     ∃ s st r st',
       NewSentinel st0 ty m = (s, st) ∧
       SentinelWithStack st callers (base s) = Some (r, st') ∧
       is_Some (errs st !! s) ∧
       ∀ p e, errs st !! p = Some e → errs st' !! p = Some e).
Proof.
  split; [apply SentinelWithStack_effect|].
  intros st0 ty m callers. rewrite NewSentinel_eq.
  set (sent := {| cause := nil_error; msg := m; typeStr := ty; stacktrace := None;
                  metadata := Some (length (maps st0)) |}).
  set (s := length (errs st0)).
  set (st := {| errs := errs st0 ++ [sent]; maps := maps st0 ++ [∅] |}).
  assert (errs st !! s = Some sent) as Hs by (by apply list_lookup_middle).
  pose proof (SentinelWithStack_on_base st callers (base s) s sent eq_refl Hs) as H1.
  change (set_stacktrace sent None) with sent in H1.
  rewrite list_insert_id in H1 by done.
  do 4 eexists. split; [done|]. split; [exact H1|]. split; [by eexists|].
  intros p e He. cbn [errs]. by apply lookup_app_l_Some.
Qed.

Lemma StackTrace_lookup (st : state) (p : loc) (e : baseError) :
  errs st !! p = Some e → StackTrace_ st p = Some (stacktrace e).
Proof. intros H. unfold StackTrace_. by rewrite H. Qed.

(** C5, as the code has it. Two calls of [SentinelWithStack] on a sentinel of
    [NewSentinel] return two new error values with the [Type()] and the
    message of the sentinel, each with the trace captured from the call stack
    of its own call, and [Is] matches both against the sentinel. The trace of
    a call is non-empty as soon as its call stack has two frames, and the two
    traces differ exactly when the frames captured by the two calls differ:
    two calls made with the same call stack carry equal traces. *)
Theorem SentinelWithStack_twice (st0 : state) (ty m : string) (c1 c2 : list Frame) :
  ∃ s st r1 st1 r2 st2,
    NewSentinel st0 ty m = (s, st) ∧
    SentinelWithStack st c1 (base s) = Some (r1, st1) ∧
    SentinelWithStack st1 c2 (base s) = Some (r2, st2) ∧
    (r1 ≠ s ∧ r2 ≠ s ∧ r1 ≠ r2) ∧
    (Type_ st1 r1 = Type_ st s ∧ Type_ st2 r2 = Type_ st s ∧
     Type_ st2 r1 = Type_ st s ∧ Type_ st2 s = Type_ st s) ∧
    (msg <$> errs st !! s = Some m ∧ msg <$> errs st1 !! r1 = Some m ∧
     msg <$> errs st2 !! r2 = Some m ∧ msg <$> errs st2 !! r1 = Some m) ∧
    (StackTrace_ st1 r1 = Some (getStack c1 0) ∧
     StackTrace_ st2 r1 = Some (getStack c1 0) ∧
     StackTrace_ st2 r2 = Some (getStack c2 0)) ∧
    ((2 ≤ length c1)%nat → frames (getStack c1 0) ≠ []) ∧
    ((2 ≤ length c2)%nat → frames (getStack c2 0) ≠ []) ∧
    (StackTrace_ st2 r1 = StackTrace_ st2 r2 ↔ getStack c1 0 = getStack c2 0) ∧
    (∀ fuel, (2 ≤ fuel)%nat →
       Is fuel st1 (base r1) (base s) = Some true ∧
       Is fuel st2 (base r1) (base s) = Some true ∧
       Is fuel st2 (base r2) (base s) = Some true).
Proof.
  rewrite NewSentinel_eq.
  set (sent := {| cause := nil_error; msg := m; typeStr := ty; stacktrace := None;
                  metadata := Some (length (maps st0)) |}).
  set (s := length (errs st0)).
  set (st := {| errs := errs st0 ++ [sent]; maps := maps st0 ++ [∅] |}).
  assert (errs st !! s = Some sent) as Hs by (by apply list_lookup_middle).
  pose proof (SentinelWithStack_on_base st c1 (base s) s sent eq_refl Hs) as H1.
  change (set_stacktrace sent None) with sent in H1.
  rewrite list_insert_id in H1 by done.
  set (n1 := {| cause := base s; msg := msg sent; typeStr := typeStr sent;
                stacktrace := getStack c1 0; metadata := metadata sent |}) in H1.
  set (st1 := {| errs := errs st ++ [n1]; maps := maps st |}) in H1.
  assert (errs st1 !! s = Some sent) as Hs1 by (by apply lookup_app_l_Some).
  pose proof (SentinelWithStack_on_base st1 c2 (base s) s sent eq_refl Hs1) as H2.
  change (set_stacktrace sent None) with sent in H2.
  rewrite list_insert_id in H2 by done.
  set (n2 := {| cause := base s; msg := msg sent; typeStr := typeStr sent;
                stacktrace := getStack c2 0; metadata := metadata sent |}) in H2.
  set (st2 := {| errs := errs st1 ++ [n2]; maps := maps st1 |}) in H2.
  set (r1 := length (errs st)) in *. set (r2 := length (errs st1)) in *.
  assert (r1 = S s) as Hr1 by (unfold r1, st; cbn; rewrite length_app; cbn; lia).
  assert (r2 = S (S s)) as Hr2
    by (unfold r2, st1, st; cbn; rewrite !length_app; cbn; lia).
  assert (errs st1 !! r1 = Some n1) as Hn1 by (by apply list_lookup_middle).
  assert (errs st2 !! r1 = Some n1) as Hn1' by (by apply lookup_app_l_Some).
  assert (errs st2 !! r2 = Some n2) as Hn2 by (by apply list_lookup_middle).
  assert (errs st2 !! s = Some sent) as Hs2 by (by apply lookup_app_l_Some).
  exists s, st, r1, st1, r2, st2.
  do 3 (split; [done|]).
  split; [lia|].
  split. { by rewrite (Type_lookup _ _ _ Hn1), (Type_lookup _ _ _ Hn1'),
             (Type_lookup _ _ _ Hn2), (Type_lookup _ _ _ Hs2), (Type_lookup _ _ _ Hs). }
  split. { by rewrite Hs, Hn1, Hn1', Hn2. }
  rewrite (StackTrace_lookup _ _ _ Hn1), (StackTrace_lookup _ _ _ Hn1'),
    (StackTrace_lookup _ _ _ Hn2).
  split; [done|].
  split; [apply getStack_0_nonempty|].
  split; [apply getStack_0_nonempty|].
  split. { cbn [stacktrace n1 n2]. split; congruence. }
  intros fuel Hfuel.
  split; [by apply (Is_cause _ _ _ _ n1)|].
  split; [by apply (Is_cause _ _ _ _ n1)|by apply (Is_cause _ _ _ _ n2)].
Qed.

(** *** Panic capture *)

Lemma trim2_deep (st : state) (p : loc) (e : baseError) :
  errs st !! p = Some e →
  (2 ≤ length (frames (stacktrace e)))%nat →
  trim2 st p =
    Some (store_error st p (set_stacktrace e (Some (drop 2 (frames (stacktrace e)))))).
Proof.
  intros He Hlen. unfold trim2, reslice_from. rewrite He. cbn -[Nat.leb drop].
  destruct (stacktrace e) as [fs|] eqn:Hs; [|cbn in Hlen; lia].
  apply Nat.leb_le in Hlen. rewrite Hlen. done.
Qed.

Lemma trim2_shallow (st : state) (p : loc) (e : baseError) :
  errs st !! p = Some e →
  (length (frames (stacktrace e)) < 2)%nat →
  trim2 st p = None.
Proof.
  intros He Hlen. unfold trim2, reslice_from. rewrite He. cbn -[Nat.leb drop].
  apply Nat.leb_gt in Hlen. rewrite Hlen. done.
Qed.

Lemma store_error_lookup (st : state) (p : loc) (e e' : baseError) :
  errs st !! p = Some e → errs (store_error st p e') !! p = Some e'.
Proof. intros He. cbn. apply list_lookup_insert_eq. by eapply lookup_lt_Some. Qed.

Lemma verbatim_caught_panic : Sprintf "caught panic" [] = "caught panic".
Proof. by apply Sprintf_verbatim. Qed.

(** The error [RecoverPanic] builds for a recovered value that is not a
    [*baseError]: allocated as [new], then trimmed. *)
Lemma RecoverPanic_trimmed (st0 : state) (callers : list Frame) (new : baseError) :
  stacktrace new = getStack callers 0 →
  (2 ≤ length (frames (getStack callers 0)))%nat →
  ∃ st', trim2 (alloc_error st0 new).2 (alloc_error st0 new).1 = Some st' ∧
    errs st' !! (alloc_error st0 new).1 =
      Some (set_stacktrace new (Some (drop 2 (frames (getStack callers 0))))).
Proof.
  intros Hs Hlen. pose proof (alloc_error_lookup_new st0 new) as Hnew.
  rewrite (trim2_deep _ _ new) by (done || by rewrite Hs).
  eexists. split; [done|]. rewrite Hs. by apply (store_error_lookup _ _ new).
Qed.

(** C7. [RecoverPanic] leaves the slot alone when nothing was recovered, puts
    a recovered [*baseError] into it as it is, wraps any other error with the
    message [caught panic], turns a value that is no error into a message,
    and trims the two innermost frames in the last two cases; the call stack
    then has to hold the two frames that are trimmed. For a recovered value
    that is not nil the slot ends up not nil. *)
Theorem RecoverPanic_cases (st : state) (callers : list Frame) (slot : error) :
  RecoverPanic st callers any_nil slot = Some (slot, st) ∧
  (∀ p, RecoverPanic st callers (any_error (base p)) slot = Some (base p, st)) ∧
  (∀ id text inner,
     valid st inner →
     (2 ≤ length (frames (getStack callers 0)))%nat →
     ∃ w st1 e1 st',
       Wrap st callers (foreign id text inner) "caught panic" [] = Some (w, st1) ∧
       errs st1 !! w = Some e1 ∧
       RecoverPanic st callers (any_error (foreign id text inner)) slot
         = Some (base w, st') ∧
       errs st' !! w
         = Some (set_stacktrace e1 (Some (drop 2 (frames (getStack callers 0))))) ∧
       cause e1 = foreign id text inner ∧ msg e1 = "caught panic") ∧
  (∀ v,
     (2 ≤ length (frames (getStack callers 0)))%nat →
     ∃ w st' m,
       RecoverPanic st callers (any_value v) slot = Some (base w, st') ∧
       errs st' !! w
         = Some {| cause := nil_error;
                   msg := Sprintf (Sprintf "caught panic: %v" [any_value v]) [];
                   typeStr := "";
                   stacktrace := Some (drop 2 (frames (getStack callers 0)));
                   metadata := Some m |}) ∧
  (∀ r,
     r ≠ any_nil →
     (∀ e, r = any_error e → valid st e) →
     (2 ≤ length (frames (getStack callers 0)))%nat →
     ∃ slot' st', RecoverPanic st callers r slot = Some (slot', st') ∧
       slot' ≠ nil_error).
Proof.
  assert (∀ id text inner,
     valid st inner →
     (2 ≤ length (frames (getStack callers 0)))%nat →
     ∃ w st1 e1 st',
       Wrap st callers (foreign id text inner) "caught panic" [] = Some (w, st1) ∧
       errs st1 !! w = Some e1 ∧
       RecoverPanic st callers (any_error (foreign id text inner)) slot
         = Some (base w, st') ∧
       errs st' !! w
         = Some (set_stacktrace e1 (Some (drop 2 (frames (getStack callers 0))))) ∧
       cause e1 = foreign id text inner ∧ msg e1 = "caught panic") as Hforeign.
  { intros id text inner Hv Hlen.
    assert (∃ st0 new, Wrap st callers (foreign id text inner) "caught panic" []
                         = Some (alloc_error st0 new) ∧
                       stacktrace new = getStack callers 0 ∧
                       cause new = foreign id text inner ∧
                       msg new = "caught panic") as (st0 & new & HW & Hs & Hc & Hm).
    { destruct (As (foreign id text inner)) as [b|] eqn:Hb.
      - destruct (Hv b Hb) as [e He].
        rewrite (Wrap_on_base _ _ _ _ _ b e) by done.
        do 2 eexists. split; [done|]. repeat split. apply verbatim_caught_panic.
      - rewrite Wrap_on_other by done.
        do 2 eexists. split; [done|]. repeat split. apply verbatim_caught_panic. }
    destruct (RecoverPanic_trimmed st0 callers new Hs Hlen) as (st' & Ht & Hl).
    pose proof (alloc_error_lookup_new st0 new) as Hnew.
    unfold RecoverPanic. rewrite HW.
    destruct (alloc_error st0 new) as [w st1]. cbn [fst snd] in *.
    exists w, st1, new, st'. do 2 (split; [done|]).
    split; [|done]. cbn. rewrite Ht. done. }
  assert (∀ v,
     (2 ≤ length (frames (getStack callers 0)))%nat →
     ∃ w st' m,
       RecoverPanic st callers (any_value v) slot = Some (base w, st') ∧
       errs st' !! w
         = Some {| cause := nil_error;
                   msg := Sprintf (Sprintf "caught panic: %v" [any_value v]) [];
                   typeStr := "";
                   stacktrace := Some (drop 2 (frames (getStack callers 0)));
                   metadata := Some m |}) as Hvalue.
  { intros v Hlen. unfold RecoverPanic, New.
    set (new := {| cause := nil_error;
                   msg := Sprintf (Sprintf "caught panic: %v" [any_value v]) [];
                   typeStr := ""; stacktrace := getStack callers 0;
                   metadata := Some (make_map st ∅).1 |}).
    destruct (RecoverPanic_trimmed (make_map st ∅).2 callers new eq_refl Hlen)
      as (st' & Ht & Hl).
    change (let '(m, st0) := make_map st ∅ in
            alloc_error st0 {| cause := nil_error;
                   msg := Sprintf (Sprintf "caught panic: %v" [any_value v]) [];
                   typeStr := ""; stacktrace := getStack callers 0;
                   metadata := Some m |})
      with (alloc_error (make_map st ∅).2 new).
    destruct (alloc_error (make_map st ∅).2 new) as [w st1]. cbn [fst snd] in *.
    exists w, st', (make_map st ∅).1. rewrite Ht. cbn. done. }
  split; [done|]. split; [done|]. split; [done|]. split; [done|].
  intros r Hr Hv Hlen. destruct r as [[|p|id text inner]|v].
  - done.
  - by exists (base p), st.
  - assert (valid st inner) as Hvi.
    { intros b Hb. by apply (Hv (foreign id text inner)). }
    destruct (Hforeign id text inner Hvi Hlen) as (w & _ & _ & st' & _ & _ & HR & _).
    by exists (base w), st'.
  - destruct (Hvalue v Hlen) as (w & st' & _ & HR & _). by exists (base w), st'.
Qed.

(** With fewer than two frames captured, the trimming panics. *)
Lemma RecoverPanic_shallow_stack (st : state) (callers : list Frame)
    (v : value) (slot : error) :
  (length (frames (getStack callers 0)) < 2)%nat →
  RecoverPanic st callers (any_value v) slot = None.
Proof.
  intros Hlen. unfold RecoverPanic, New.
  set (new := {| cause := nil_error;
                 msg := Sprintf (Sprintf "caught panic: %v" [any_value v]) [];
                 typeStr := ""; stacktrace := getStack callers 0;
                 metadata := Some (make_map st ∅).1 |}).
  change (let '(m, st0) := make_map st ∅ in
          alloc_error st0 {| cause := nil_error;
                 msg := Sprintf (Sprintf "caught panic: %v" [any_value v]) [];
                 typeStr := ""; stacktrace := getStack callers 0;
                 metadata := Some m |})
    with (alloc_error (make_map st ∅).2 new).
  pose proof (alloc_error_lookup_new (make_map st ∅).2 new) as Hnew.
  destruct (alloc_error (make_map st ∅).2 new) as [w st1]. cbn [fst snd] in *.
  by rewrite (trim2_shallow _ _ new).
Qed.

(** *** The display string *)

Lemma contextMsg_no_frame (e : baseError) :
  frames (stacktrace e) = [] → contextMsg e = typeStr e.
Proof.
  intros H. unfold contextMsg. rewrite H.
  destruct (decide (typeStr e ≠ "")) as [|Hn]; [done|].
  by apply dec_stable in Hn.
Qed.

Lemma contextMsg_top_frame (e : baseError) (f : Frame) (fs : list Frame) :
  frames (stacktrace e) = f :: fs →
  contextMsg e =
    if decide (typeStr e ≠ "")
    then typeStr e +:+ "@" +:+ Package f +:+ "." +:+ FuncName f
    else Package f +:+ "." +:+ FuncName f.
Proof.
  intros H. unfold contextMsg. rewrite H.
  destruct (decide (typeStr e ≠ "")) as [Hne|Hn].
  - rewrite decide_True by done. done.
  - rewrite decide_False by (intros ?; done). done.
Qed.

Lemma Error_unfold (n : nat) (st : state) (p : loc) (e : baseError) :
  errs st !! p = Some e →
  Error (S n) st (base p) =
    if decide (cause e ≠ nil_error)
    then c ← Error n st (cause e); Some (own_display e +:+ " => " +:+ c)
    else Some (own_display e).
Proof.
  intros He. cbn. rewrite He. cbn. unfold own_display.
  destruct (decide (contextMsg e ≠ "")) as [|Hn]; [done|].
  apply dec_stable in Hn. by rewrite Hn.
Qed.

Lemma Error_defined_at (st : state) :
  wf st →
  ∀ p, is_Some (errs st !! p) →
  ∃ s, ∀ fuel, (p + 2 ≤ fuel)%nat → Error fuel st (base p) = Some s.
Proof.
  intros Hwf p. induction (lt_wf p) as [p _ IH]. intros [e He].
  destruct (Hwf p e He) as [Holder _].
  destruct (cause e) as [|q|id text inner] eqn:Hc.
  - exists (own_display e). intros [|n] Hfuel; [lia|].
    rewrite (Error_unfold _ _ _ e He), Hc. done.
  - assert (q < p)%nat as Hq by (by apply Holder).
    destruct (IH q Hq) as [c Hcq].
    { apply lookup_lt_is_Some. apply lookup_lt_Some in He. lia. }
    exists (own_display e +:+ " => " +:+ c). intros [|n] Hfuel; [lia|].
    rewrite (Error_unfold _ _ _ e He), Hc.
    rewrite decide_True by done. rewrite Hcq by lia. done.
  - exists (own_display e +:+ " => " +:+ text). intros [|[|n]] Hfuel; [lia..|].
    rewrite (Error_unfold _ _ _ e He), Hc. done.
Qed.

Lemma New_eq (st0 : state) (callers : list Frame) (m : string) (args : list any) :
  New st0 callers m args =
    (length (errs st0),
     {| errs := errs st0 ++ [{| cause := nil_error; msg := Sprintf m args; typeStr := "";
                                stacktrace := getStack callers 0;
                                metadata := Some (length (maps st0)) |}];
        maps := maps st0 ++ [∅] |}).
Proof. done. Qed.

(** C8, as the code has it. [Error()] is defined for every error of a heap the
    package builds, also without a stack trace, where the type tag alone is
    the context. The context is [package.function] of the first frame,
    preceded by the type tag and [@] when there is a tag; with a non-empty
    message the context is put in brackets and the message follows it; the
    display string of a cause follows after the arrow. In the chain of the
    specification the wrapper messages therefore come before [disk full]. *)
Theorem Error_display_string (st : state) :
  wf st →
  (∀ err, valid st err → err ≠ nil_error →
     ∃ s, ∀ fuel, (length (errs st) < fuel)%nat → Error fuel st err = Some s) ∧
  (∀ p e fuel s, errs st !! p = Some e → Error fuel st (base p) = Some s →
     (cause e = nil_error ∧ s = own_display e) ∨
     (∃ c n, fuel = S n ∧ cause e ≠ nil_error ∧ Error n st (cause e) = Some c ∧
        s = own_display e +:+ " => " +:+ c)) ∧
  (∀ e, own_display e =
          if decide (msg e ≠ "") then "[" +:+ contextMsg e +:+ "] " +:+ msg e
          else contextMsg e) ∧
  (∀ e, frames (stacktrace e) = [] → contextMsg e = typeStr e) ∧
  (∀ e f fs, frames (stacktrace e) = f :: fs →
     contextMsg e =
       if decide (typeStr e ≠ "")
       then typeStr e +:+ "@" +:+ Package f +:+ "." +:+ FuncName f
       else Package f +:+ "." +:+ FuncName f) ∧
  (∀ st0 c1 c2 c3, ∃ e1 st1 e2 st2 e3 st3,
     New st0 c1 "disk full" [] = (e1, st1) ∧
     WrapWithType st1 c2 (base e1) "save failed" "IOError" [] = Some (e2, st2) ∧
     Wrap st2 c3 (base e2) "request failed" [] = Some (e3, st3) ∧
     Type_ st3 e3 = Some "IOError" ∧
     Unwrap st3 e3 = Some (base e2) ∧ Unwrap st3 e2 = Some (base e1) ∧
     ∃ x1 x2 x3, ∀ fuel, (3 ≤ fuel)%nat →
       Error fuel st3 (base e3) =
         Some (("[" +:+ x3 +:+ "] " +:+ "request failed") +:+ " => " +:+
               ("[" +:+ x2 +:+ "] " +:+ "save failed") +:+ " => " +:+
               ("[" +:+ x1 +:+ "] " +:+ "disk full"))).
Proof.
  intros Hwf.
  split.
  { intros [|p|id text inner] Hv Hnil; [done| |].
    - destruct (Error_defined_at st Hwf p) as [s Hs]; [by apply Hv|].
      exists s. intros fuel Hfuel. apply Hs.
      assert (p < length (errs st))%nat; [|lia].
      apply lookup_lt_is_Some. by apply Hv.
    - exists text. intros [|n] Hfuel; [lia|done]. }
  split.
  { intros p e [|n] s He Hs; [done|].
    rewrite (Error_unfold _ _ _ e He) in Hs.
    destruct (decide (cause e ≠ nil_error)) as [Hc|Hc].
    - right. destruct (Error n st (cause e)) as [c|] eqn:Hcause; [|done].
      exists c, n. cbn in Hs. by injection Hs as <-.
    - left. apply dec_stable in Hc. by injection Hs as <-. }
  split; [done|].
  split; [apply contextMsg_no_frame|].
  split; [apply contextMsg_top_frame|].
  intros st0 c1 c2 c3. rewrite New_eq.
  rewrite (Sprintf_verbatim "disk full") by done.
  set (n1 := {| cause := nil_error; msg := "disk full"; typeStr := "";
                stacktrace := getStack c1 0; metadata := Some (length (maps st0)) |}).
  set (e1 := length (errs st0)).
  set (st1 := {| errs := errs st0 ++ [n1]; maps := maps st0 ++ [∅] |}).
  assert (errs st1 !! e1 = Some n1) as H1 by (by apply list_lookup_middle).
  pose proof (WrapWithType_on_base st1 c2 (base e1) "save failed" "IOError" []
                e1 n1 eq_refl H1) as HW2.
  rewrite (Sprintf_verbatim "save failed") in HW2 by done.
  set (n2 := {| cause := base e1; msg := "save failed"; typeStr := "IOError";
                stacktrace := getStack c2 0; metadata := metadata n1 |}) in HW2.
  pose proof (alloc_error_lookup_new (make_map st1 ∅).2 n2) as H2.
  pose proof (alloc_error_lookup_old (make_map st1 ∅).2 n2 n1 e1 H1) as H1'.
  destruct (alloc_error (make_map st1 ∅).2 n2) as [e2 st2]. cbn [fst snd] in *.
  pose proof (Wrap_on_base st2 c3 (base e2) "request failed" [] e2 n2 eq_refl H2) as HW3.
  rewrite (Sprintf_verbatim "request failed") in HW3 by done.
  set (n3 := {| cause := base e2; msg := "request failed"; typeStr := typeStr n2;
                stacktrace := getStack c3 0; metadata := metadata n2 |}) in HW3.
  pose proof (alloc_error_lookup_new st2 n3) as H3.
  pose proof (alloc_error_lookup_old st2 n3 n2 e2 H2) as H2'.
  pose proof (alloc_error_lookup_old st2 n3 n1 e1 H1') as H1''.
  destruct (alloc_error st2 n3) as [e3 st3]. cbn [fst snd] in *.
  exists e1, st1, e2, st2, e3, st3.
  do 3 (split; [done|]).
  split. { by rewrite (Type_lookup _ _ _ H3). }
  unfold Unwrap. rewrite H3, H2'. do 2 (split; [done|]).
  exists (contextMsg n1), (contextMsg n2), (contextMsg n3).
  intros [|[|[|n]]] Hfuel; [lia..|].
  rewrite (Error_unfold _ _ _ n3 H3). rewrite decide_True by done.
  rewrite (Error_unfold _ _ _ n2 H2'). rewrite decide_True by done.
  rewrite (Error_unfold _ _ _ n1 H1''). done.
Qed.

(** [Error()] of the second errors.go indexes the trace without a guard. *)
Lemma NoMeta_Error_empty_trace (fuel : nat) (st : NoMeta.state) (p : loc)
    (e : NoMeta.baseError) :
  st !! p = Some e → frames (NoMeta.stacktrace e) = [] →
  NoMeta.Error fuel st (base p) = None.
Proof.
  intros He Hs. destruct fuel as [|n]; [done|]. cbn. rewrite He. cbn. by rewrite Hs.
Qed.

(** [SentinelWithStack] of the second errors.go copies the cause of its
    argument instead of wrapping it, so the result does not lead back to a sentinel that has
    no cause. *)
Lemma NoMeta_SentinelWithStack_not_Is (fuel : nat) (st : NoMeta.state)
    (callers : list Frame) (s : loc) (e : NoMeta.baseError) :
  st !! s = Some e → NoMeta.cause e = nil_error → fuel ≠ 0%nat →
  ∃ r st', NoMeta.SentinelWithStack st callers (base s) = Some (r, st') ∧
    NoMeta.Is fuel st' (base r) (base s) = Some false.
Proof.
  intros He Hc Hfuel. unfold NoMeta.SentinelWithStack. rewrite He. cbn.
  do 2 eexists. split; [done|].
  unfold NoMeta.Is. rewrite decide_False by done.
  destruct fuel as [|n]; [done|]. cbn.
  rewrite length_insert.
  rewrite decide_False by (intros [= H]; apply lookup_lt_Some in He; lia).
  rewrite list_lookup_middle by (by rewrite length_insert).
  cbn. by rewrite Hc.
Qed.

(** *** Frame names *)

Lemma prefix_byte (c : ascii) (s : string) :
  String.prefix (String c "") s =
    match s with String c' _ => Ascii.eqb c c' | EmptyString => false end.
Proof.
  destruct s as [|c' s]; [done|]. cbn.
  destruct (ascii_dec c c') as [->|Hne].
  - rewrite Ascii.eqb_refl. by destruct s.
  - symmetry. by apply Ascii.eqb_neq.
Qed.

Lemma len_nonneg (s : string) : 0 ≤ Strings.len s.
Proof. unfold Strings.len. lia. Qed.

Lemma len_cons (c : ascii) (s : string) :
  Strings.len (String c s) = Strings.len s + 1.
Proof. unfold Strings.len. cbn [String.length]. lia. Qed.

Lemma append_nil_l (s : string) : "" +:+ s = s.
Proof. done. Qed.

Lemma append_cons (c : ascii) (s t : string) : String c s +:+ t = String c (s +:+ t).
Proof. done. Qed.

Lemma Index_byte_cons (c c' : ascii) (s : string) :
  Strings.Index (String c' s) (String c "") =
    if Ascii.eqb c c' then 0
    else if Z.eqb (Strings.Index s (String c "")) (-1) then -1
         else Strings.Index s (String c "") + 1.
Proof. rewrite <- (prefix_byte c (String c' s)). done. Qed.

Lemma LastIndex_byte_cons (c c' : ascii) (s : string) :
  Strings.LastIndex (String c' s) (String c "") =
    if Z.eqb (Strings.LastIndex s (String c "")) (-1)
    then (if Ascii.eqb c c' then 0 else -1)
    else Strings.LastIndex s (String c "") + 1.
Proof. rewrite <- (prefix_byte c (String c' s)). done. Qed.

Lemma Index_byte_absent (c : ascii) (s : string) :
  Strings.has_byte c s = false → Strings.Index s (String c "") = -1.
Proof.
  induction s as [|c' s IH]; [done|].
  rewrite Index_byte_cons. cbn [Strings.has_byte].
  destruct (Ascii.eqb c c'); [done|]. intros H. by rewrite (IH H).
Qed.

Lemma Index_byte_first (c : ascii) (p rest : string) :
  Strings.has_byte c p = false →
  Strings.Index (p +:+ String c rest) (String c "") = Strings.len p.
Proof.
  induction p as [|c' p IH].
  - intros _. rewrite append_nil_l, Index_byte_cons. by rewrite Ascii.eqb_refl.
  - rewrite append_cons, Index_byte_cons. cbn [Strings.has_byte].
    destruct (Ascii.eqb c c'); [done|]. intros H. rewrite (IH H), len_cons.
    pose proof (len_nonneg p). destruct (Z.eqb_spec (Strings.len p) (-1)); lia.
Qed.

Lemma LastIndex_byte_absent (c : ascii) (s : string) :
  Strings.has_byte c s = false → Strings.LastIndex s (String c "") = -1.
Proof.
  induction s as [|c' s IH]; [done|].
  rewrite LastIndex_byte_cons. cbn [Strings.has_byte].
  destruct (Ascii.eqb c c'); [done|]. intros H. by rewrite (IH H).
Qed.

Lemma LastIndex_byte_last (c : ascii) (d q : string) :
  Strings.has_byte c q = false →
  Strings.LastIndex (d +:+ String c q) (String c "") = Strings.len d.
Proof.
  intros Hq. induction d as [|c' d IH].
  - rewrite append_nil_l, LastIndex_byte_cons, (LastIndex_byte_absent c q Hq).
    by rewrite Ascii.eqb_refl.
  - rewrite append_cons, LastIndex_byte_cons, IH, len_cons.
    pose proof (len_nonneg d). destruct (Z.eqb_spec (Strings.len d) (-1)); lia.
Qed.

Lemma take_app_length (p r : string) :
  Strings.take (String.length p) (p +:+ r) = p.
Proof.
  induction p as [|c p IH]; [by destruct r|].
  rewrite append_cons. cbn [String.length Strings.take]. by f_equal.
Qed.

Lemma drop_app_cons (d : string) (c : ascii) (s : string) :
  Strings.drop (S (String.length d)) (d +:+ String c s) = s.
Proof.
  induction d as [|c' d IH]; [done|].
  rewrite append_cons. cbn [String.length]. by rewrite <- IH at 2.
Qed.

(** The text after the last slash, as [Package] cuts it out. *)
Lemma slice_from_path_free (fn sym : string) :
  path_free_symbol fn sym →
  Strings.slice_from fn (Strings.LastIndex fn "/" + 1) = sym.
Proof.
  intros [Hsym [->|[dir ->]]]; unfold Strings.slice_from.
  - by rewrite (LastIndex_byte_absent _ _ Hsym).
  - change ("/" +:+ sym) with (String "/" sym).
    rewrite (LastIndex_byte_last _ _ _ Hsym). unfold Strings.len.
    replace (Z.to_nat (Z.of_nat (String.length dir) + 1))
      with (S (String.length dir)) by lia.
    apply drop_app_cons.
Qed.

Lemma Package_reserved (f : Frame) :
  reserved (Function f) = true → Package f = "".
Proof. unfold Package, reserved. by intros ->. Qed.

Lemma Package_first_dot (f : Frame) (sym p rest : string) :
  reserved (Function f) = false →
  path_free_symbol (Function f) sym →
  sym = p +:+ "." +:+ rest →
  Strings.has_byte "." p = false →
  Package f = p.
Proof.
  intros Hres Hsym -> Hp. unfold Package. fold (reserved (Function f)).
  rewrite Hres. cbv zeta. unfold Strings.slice.
  fold (Strings.slice_from (Function f) (Strings.LastIndex (Function f) "/" + 1)).
  rewrite (slice_from_path_free _ _ Hsym).
  change ("." +:+ rest) with (String "." rest).
  rewrite (Index_byte_first _ _ _ Hp).
  pose proof (len_nonneg p).
  destruct (Z.eqb_spec (Strings.len p) (-1)) as [|_]; [lia|]. cbn [negb].
  replace (Z.to_nat (Strings.LastIndex (Function f) "/" + 1 + Strings.len p
                     - (Strings.LastIndex (Function f) "/" + 1)))
    with (String.length p) by (unfold Strings.len; lia).
  apply take_app_length.
Qed.

Lemma Package_no_dot (f : Frame) (sym : string) :
  path_free_symbol (Function f) sym →
  Strings.has_byte "." sym = false →
  Package f = "".
Proof.
  intros Hsym Hdot. unfold Package.
  destruct (_ || _); [done|]. cbv zeta.
  rewrite (slice_from_path_free _ _ Hsym).
  by rewrite (Index_byte_absent _ _ Hdot).
Qed.

Lemma FuncName_last_dot (f : Frame) (a b : string) :
  Function f = a +:+ "." +:+ b →
  Strings.has_byte "." b = false →
  FuncName f = b.
Proof.
  intros Hf Hb. unfold FuncName. rewrite Hf.
  change ("." +:+ b) with (String "." b).
  rewrite (LastIndex_byte_last _ _ _ Hb).
  pose proof (len_nonneg a).
  destruct (Z.eqb_spec (Strings.len a) (-1)) as [|_]; [lia|]. cbn [negb].
  unfold Strings.slice_from, Strings.len.
  replace (Z.to_nat (Z.of_nat (String.length a) + 1)) with (S (String.length a)) by lia.
  apply drop_app_cons.
Qed.

Lemma FuncName_no_dot (f : Frame) :
  Strings.has_byte "." (Function f) = false → FuncName f = Function f.
Proof. intros H. unfold FuncName. by rewrite (LastIndex_byte_absent _ _ H). Qed.

(** C9, as the code has it. [Package()] is the part of the path-free symbol
    before its first dot, and empty for a symbol with the prefix [go.] or
    [type.] and for one without a dot after the path; [FuncName()] is what
    follows the last dot of the symbol, or the whole symbol when it has no
    dot. So [pkg/sub.Handler.func1] has the package [sub] and the function
    name [func1], and a symbol that starts with [type.] has no package. *)
Theorem Frame_name_decomposition :
  (∀ f, reserved (Function f) = true → Package f = "") ∧
  (∀ f sym p rest,
     reserved (Function f) = false →
     path_free_symbol (Function f) sym →
     sym = p +:+ "." +:+ rest →
     Strings.has_byte "." p = false →
     Package f = p) ∧
  (∀ f sym,
     path_free_symbol (Function f) sym →
     Strings.has_byte "." sym = false →
     Package f = "") ∧
  (∀ f a b,
     Function f = a +:+ "." +:+ b →
     Strings.has_byte "." b = false →
     FuncName f = b) ∧
  (∀ f, Strings.has_byte "." (Function f) = false → FuncName f = Function f) ∧
  Package (frame_of "pkg/sub.Handler.func1") = "sub" ∧
  FuncName (frame_of "pkg/sub.Handler.func1") = "func1" ∧
  (∀ f rest, Function f = "type." +:+ rest → Package f = "").
Proof.
  split; [apply Package_reserved|].
  split; [apply Package_first_dot|].
  split; [apply Package_no_dot|].
  split; [apply FuncName_last_dot|].
  split; [apply FuncName_no_dot|].
  split; [done|]. split; [done|].
  intros f rest Hf. apply Package_reserved. unfold reserved. rewrite Hf.
  apply orb_true_intro. right. unfold Strings.HasPrefix. cbn.
  by destruct rest.
Qed.

(** *** Every operation keeps the heap well-formed *)

Lemma valid_nil (st : state) : valid st nil_error.
Proof. by intros b Hb. Qed.

Lemma wf_fresh_map (st : state) (e : baseError) :
  wf st → valid st (cause e) → metadata e = Some (make_map st ∅).1 →
  wf (alloc_error (make_map st ∅).2 e).2.
Proof.
  intros Hwf Hv Hm. apply wf_alloc_error.
  - by apply wf_make_map.
  - apply valid_make_map. exact Hv.
  - exists (make_map st ∅).1. split; [done|].
    rewrite make_map_lookup_new. by eexists.
Qed.

Lemma wf_New (st : state) (callers : list Frame) (m : string) (args : list any) :
  wf st → wf (New st callers m args).2.
Proof. intros Hwf. by apply wf_fresh_map; [|apply valid_nil|]. Qed.

Lemma wf_NewWithType (st : state) (callers : list Frame) (m ty : string)
    (args : list any) :
  wf st → wf (NewWithType st callers m ty args).2.
Proof. intros Hwf. by apply wf_fresh_map; [|apply valid_nil|]. Qed.

Lemma wf_NewSentinel (st : state) (ty m : string) :
  wf st → wf (NewSentinel st ty m).2.
Proof. intros Hwf. by apply wf_fresh_map; [|apply valid_nil|]. Qed.

Lemma wf_Wrap (st : state) (callers : list Frame) (err : error) (m : string)
    (args : list any) (res : loc * state) :
  wf st → valid st err → Wrap st callers err m args = Some res → wf res.2.
Proof.
  intros Hwf Hv. destruct (As err) as [b|] eqn:Hb.
  - destruct (Hv b Hb) as [e He]. rewrite (Wrap_on_base _ _ _ _ _ b e) by done.
    intros [= <-].
    apply wf_alloc_error; [done|exact Hv|]. exact (wf_metadata st Hwf b e He).
  - rewrite Wrap_on_other by done. intros [= <-]. by apply wf_fresh_map.
Qed.

Lemma wf_W (st : state) (callers : list Frame) (err : error) (res : loc * state) :
  wf st → valid st err → W st callers err = Some res → wf res.2.
Proof.
  intros Hwf Hv. destruct (As err) as [b|] eqn:Hb.
  - destruct (Hv b Hb) as [e He]. rewrite (W_on_base _ _ _ b e) by done.
    intros [= <-].
    apply wf_alloc_error; [done|exact Hv|]. exact (wf_metadata st Hwf b e He).
  - unfold W. rewrite Hb. intros [= <-]. by apply wf_fresh_map.
Qed.

Lemma wf_WrapWithType (st : state) (callers : list Frame) (err : error)
    (m ty : string) (args : list any) (res : loc * state) :
  wf st → valid st err → WrapWithType st callers err m ty args = Some res → wf res.2.
Proof.
  intros Hwf Hv. destruct (As err) as [b|] eqn:Hb.
  - destruct (Hv b Hb) as [e He]. rewrite (WrapWithType_on_base _ _ _ _ _ _ b e) by done.
    intros [= <-]. apply wf_alloc_error.
    + by apply wf_make_map.
    + apply valid_make_map. exact Hv.
    + exact (wf_metadata _ (wf_make_map st ∅ Hwf) b e He).
  - rewrite WrapWithType_on_other by done. intros [= <-].
    by apply wf_fresh_map.
Qed.

Lemma wf_SentinelWithStack (st : state) (callers : list Frame) (err : error)
    (res : loc * state) :
  wf st → valid st err → SentinelWithStack st callers err = Some res → wf res.2.
Proof.
  intros Hwf Hv. destruct (As err) as [b|] eqn:Hb.
  - destruct (Hv b Hb) as [e He]. unfold SentinelWithStack. rewrite Hb, He.
    intros [= <-].
    assert (wf (store_error st b (set_stacktrace e None))) as Hwf'
      by (by apply (wf_store_error _ _ e)).
    apply wf_alloc_error; [done| |].
    + intros b' [= <-]. exists (set_stacktrace e None).
      by apply (store_error_lookup _ _ e).
    + exact (wf_metadata st Hwf b e He).
  - unfold SentinelWithStack. rewrite Hb. intros [= <-].
    apply wf_fresh_map; [done|exact Hv|done].
Qed.

Lemma wf_WithMetadata (st : state) (p : loc) (meta : Metadata) (st' : state) :
  wf st → WithMetadata st p meta = Some (p, st') → wf st'.
Proof.
  intros Hwf. unfold WithMetadata.
  destruct (errs st !! p) as [e|] eqn:He; [|done]. cbn.
  destruct (wf_metadata st Hwf p e He) as (r & -> & [old ->]). cbn.
  destruct (read_map st meta) as [upd|]; [|done]. cbn.
  intros [= <-]. by apply wf_store_map.
Qed.

Lemma wf_trim2 (st : state) (p : loc) (st' : state) :
  wf st → trim2 st p = Some st' → wf st'.
Proof.
  intros Hwf. unfold trim2.
  destruct (errs st !! p) as [e|] eqn:He; [|done]. cbn -[reslice_from].
  destruct (reslice_from (stacktrace e) 2) as [s|]; [|done]. cbn.
  intros [= <-]. by apply (wf_store_error _ _ e).
Qed.

Lemma wf_RecoverPanic (st : state) (callers : list Frame) (r : any)
    (slot slot' : error) (st' : state) :
  wf st → (∀ e, r = any_error e → valid st e) →
  RecoverPanic st callers r slot = Some (slot', st') → wf st'.
Proof.
  intros Hwf Hv. unfold RecoverPanic.
  destruct r as [[|p|id text inner]|v].
  - by intros [= _ <-].
  - by intros [= _ <-].
  - destruct (Wrap st callers (foreign id text inner) "caught panic" [])
      as [[w st1]|] eqn:HW; [|done]. cbn.
    destruct (trim2 st1 w) as [st2|] eqn:Ht; [|done]. cbn.
    intros [= _ <-]. apply (wf_trim2 st1 w); [|done].
    apply (wf_Wrap _ _ _ _ _ _ Hwf (Hv _ eq_refl) HW).
  - pose proof (wf_New st callers (Sprintf "caught panic: %v" [any_value v]) [] Hwf)
      as Hwf1.
    destruct (New st callers (Sprintf "caught panic: %v" [any_value v]) [])
      as [w st1]. cbn [snd] in Hwf1.
    destruct (trim2 st1 w) as [st2|] eqn:Ht; [|done]. cbn.
    intros [= _ <-]. by apply (wf_trim2 st1 w).
Qed.

(** ** Further properties of the package *)

(** *** Stack capture *)

Lemma frames_Some (l : list Frame) : frames (Some l) = l.
Proof. done. Qed.

Lemma removelast_take (callers : list Frame) :
  removelast (take 32 callers) = take (Nat.min 31 (length callers - 1)) callers.
Proof.
  rewrite removelast_firstn_len. rewrite length_take.
  change (firstn ?n ?l) with (take n l). rewrite take_take. f_equal. lia.
Qed.

(** X1. [getStack] keeps at most 31 frames, nearest first: the call stack
    without its outermost frame, cut after 31 frames. A [skip] within the
    capture removes that many frames from the front; a larger [skip] is
    ignored and the whole capture is returned. A call stack of fewer than two
    frames gives the empty (not nil) trace, a deeper one starts at the
    caller. *)
Theorem getStack_capture (callers : list Frame) (skip : nat) :
  getStack callers skip ≠ None ∧
  (length (frames (getStack callers skip)) ≤ 31)%nat ∧
  ((skip ≤ Nat.min 31 (length callers - 1))%nat →
     frames (getStack callers skip)
       = drop skip (take (Nat.min 31 (length callers - 1)) callers)) ∧
  ((Nat.min 31 (length callers - 1) < skip)%nat →
     frames (getStack callers skip) = take (Nat.min 31 (length callers - 1)) callers) ∧
  ((length callers ≤ 1)%nat → getStack callers 0 = Some []) ∧
  ((2 ≤ length callers)%nat → head (frames (getStack callers 0)) = head callers).
Proof.
  unfold getStack. cbv zeta. rewrite removelast_take.
  set (n := Nat.min 31 (length callers - 1)).
  assert (length (take n callers) = n) as Hlen
    by (rewrite length_take; unfold n; lia).
  rewrite Hlen.
  split. { by destruct (Nat.leb skip n). }
  split.
  { destruct (Nat.leb skip n); rewrite frames_Some.
    - rewrite length_drop, Hlen. unfold n. lia.
    - rewrite Hlen. unfold n. lia. }
  split.
  { intros Hle. apply Nat.leb_le in Hle. by rewrite Hle. }
  split.
  { intros Hlt. apply Nat.leb_gt in Hlt. by rewrite Hlt. }
  split.
  { intros Hshort. cbn [Nat.leb]. rewrite drop_0.
    assert (n = 0)%nat as -> by (unfold n; lia). done. }
  intros Hdeep. cbn [Nat.leb]. rewrite frames_Some, drop_0.
  destruct callers as [|f callers]; [done|].
  assert (n = S (Nat.min 30 (length callers - 1)))%nat as ->
    by (unfold n; cbn [length] in *; lia).
  done.
Qed.

(** *** What the constructors leave alone *)

Lemma allocates_alloc_error (st : state) (e : baseError) :
  allocates st (alloc_error st e).2 (alloc_error st e).1.
Proof.
  split; [by apply lookup_ge_None|].
  split; [rewrite alloc_error_lookup_new; by eexists|].
  split; [intros p e0; apply alloc_error_lookup_old|done].
Qed.

Lemma allocates_fresh_map (st : state) (e : baseError) :
  allocates st (alloc_error (make_map st ∅).2 e).2 (alloc_error (make_map st ∅).2 e).1.
Proof.
  destruct (allocates_alloc_error (make_map st ∅).2 e) as (H1 & H2 & H3 & H4).
  split; [done|]. split; [done|]. split; [done|].
  intros r m Hr. apply H4. by apply make_map_lookup_old.
Qed.

(** X2. No constructor changes what is already in the heap: [New],
    [NewWithType], [NewSentinel], [W], [Wrap] and [WrapWithType] return a
    pointer that was not in use, and every existing error and every existing
    map is as before; the three wrappers return for every valid argument. *)
Theorem constructors_only_allocate (st : state) (callers : list Frame) :
  (∀ m args, allocates st (New st callers m args).2 (New st callers m args).1) ∧
  (∀ m ty args,
     allocates st (NewWithType st callers m ty args).2
       (NewWithType st callers m ty args).1) ∧
  (∀ ty m, allocates st (NewSentinel st ty m).2 (NewSentinel st ty m).1) ∧
  (∀ err, valid st err →
     ∃ w st', W st callers err = Some (w, st') ∧ allocates st st' w) ∧
  (∀ err m args, valid st err →
     ∃ w st', Wrap st callers err m args = Some (w, st') ∧ allocates st st' w) ∧
  (∀ err m ty args, valid st err →
     ∃ w st', WrapWithType st callers err m ty args = Some (w, st') ∧
       allocates st st' w).
Proof.
  split; [intros; apply allocates_fresh_map|].
  split; [intros; apply allocates_fresh_map|].
  split; [intros; apply allocates_fresh_map|].
  split.
  { intros err Hv. destruct (As err) as [b|] eqn:Hb.
    - destruct (Hv b Hb) as [e He]. rewrite (W_on_base _ _ _ b e) by done.
      do 2 eexists. split; [apply f_equal, surjective_pairing|].
      apply allocates_alloc_error.
    - unfold W. rewrite Hb.
      do 2 eexists. split; [apply f_equal, surjective_pairing|].
      apply allocates_fresh_map. }
  split.
  { intros err m args Hv. destruct (As err) as [b|] eqn:Hb.
    - destruct (Hv b Hb) as [e He]. rewrite (Wrap_on_base _ _ _ _ _ b e) by done.
      do 2 eexists. split; [apply f_equal, surjective_pairing|].
      apply allocates_alloc_error.
    - rewrite Wrap_on_other by done.
      do 2 eexists. split; [apply f_equal, surjective_pairing|].
      apply allocates_fresh_map. }
  intros err m ty args Hv. destruct (As err) as [b|] eqn:Hb.
  - destruct (Hv b Hb) as [e He]. rewrite (WrapWithType_on_base _ _ _ _ _ _ b e) by done.
    do 2 eexists. split; [apply f_equal, surjective_pairing|].
    apply allocates_fresh_map.
  - rewrite WrapWithType_on_other by done.
    do 2 eexists. split; [apply f_equal, surjective_pairing|].
    apply allocates_fresh_map.
Qed.

(** *** How the constructors relate *)

(** X3. [W] is [Wrap] with the empty message; wrapping nil does not give nil
    but the very error [New] (or [NewWithType]) builds; [NewWithType] with
    the empty tag is [New]; and on an argument without a [*baseError] on its
    chain [SentinelWithStack] is [W]. *)
Theorem constructors_agree (st : state) (callers : list Frame) :
  (∀ err, W st callers err = Wrap st callers err "" []) ∧
  (∀ m args, Wrap st callers nil_error m args = Some (New st callers m args)) ∧
  (∀ m ty args,
     WrapWithType st callers nil_error m ty args
       = Some (NewWithType st callers m ty args)) ∧
  (∀ m args, NewWithType st callers m "" args = New st callers m args) ∧
  (∀ err, As err = None → SentinelWithStack st callers err = W st callers err).
Proof.
  split.
  { intros err. unfold W, Wrap. by rewrite (Sprintf_verbatim ""). }
  split; [done|]. split; [done|]. split; [done|].
  intros err Hb. unfold SentinelWithStack, W. by rewrite Hb.
Qed.

(** *** Matching with [Is] along a chain *)

Lemma Is_loop_heap_mono (st st' : state) :
  (∀ p e, errs st !! p = Some e → errs st' !! p = Some e) →
  ∀ fuel err target b,
    Is_loop fuel st err target = Some b → Is_loop fuel st' err target = Some b.
Proof.
  intros Hext fuel. induction fuel as [|n IH]; intros err target b; [done|].
  cbn. destruct (decide (err = target)); [done|].
  destruct err as [|p|id text inner]; [done| |].
  - destruct (errs st !! p) as [e|] eqn:He; [|done].
    rewrite (Hext p e He). cbn.
    destruct (decide (cause e = nil_error)); [done|]. apply IH.
  - destruct (decide (inner = nil_error)); [done|]. apply IH.
Qed.

(** The first step of [Is] on an allocated error that is not the target. *)
Lemma Is_loop_step (n : nat) (st : state) (p : loc) (e : baseError) (target : error) :
  errs st !! p = Some e → target ≠ base p →
  Is_loop (S n) st (base p) target =
    if decide (cause e = nil_error) then Some false
    else Is_loop n st (cause e) target.
Proof.
  intros He Hne. cbn. rewrite decide_False by congruence. by rewrite He.
Qed.

(** X4. [Is] sees through [Wrap]: the wrapper matches itself and the error it
    wraps, and it matches an existing target exactly when the wrapped error
    did. *)
Theorem Is_through_Wrap (st : state) (callers : list Frame) (err target : error)
    (m : string) (args : list any) (fuel : nat) (b : bool) :
  valid st err →
  valid st target →
  target ≠ nil_error →
  Is fuel st err target = Some b →
  ∃ w st', Wrap st callers err m args = Some (w, st') ∧
    Is (S fuel) st' (base w) target = Some b ∧
    Is (S fuel) st' (base w) (base w) = Some true ∧
    (err ≠ nil_error → Is (S (S fuel)) st' (base w) err = Some true).
Proof.
  intros Hv Hvt Hnil HIs.
  destruct (Wrap_total st callers err m args Hv)
    as (st' & e & HW & He & Hc & _ & _ & Hext & _).
  exists (length (errs st)), st'. split; [done|].
  assert (∀ x, valid st x → x ≠ base (length (errs st))) as Hfresh.
  { intros x Hx ->. destruct (Hx _ eq_refl) as [? Hl].
    apply lookup_lt_Some in Hl. lia. }
  unfold Is in *. rewrite decide_False in HIs by done.
  split.
  { rewrite decide_False by done.
    rewrite (Is_loop_step _ _ _ e) by auto. rewrite Hc.
    destruct (decide (err = nil_error)) as [->|Hne].
    - destruct fuel; [done|]. cbn in HIs.
      destruct (decide (nil_error = target)); [congruence|]. done.
    - by apply (Is_loop_heap_mono st st'). }
  split.
  { rewrite decide_False by done. cbn. by rewrite decide_True. }
  intros Hne. rewrite decide_False by done.
  rewrite (Is_loop_step _ _ _ e) by auto. rewrite Hc.
  rewrite decide_False by done. cbn. by rewrite decide_True.
Qed.

(** On a well-formed heap [Is] does not find a target whose first
    [*baseError] is [b] along a chain that only holds older errors. *)
Lemma Is_loop_misses (st : state) (target : error) (b : loc) :
  wf st → As target = Some b →
  ∀ bound, (bound ≤ b)%nat →
  ∀ c, (∀ q, As c = Some q → (q < bound)%nat ∧ is_Some (errs st !! q)) →
  ∃ n, ∀ fuel, (n ≤ fuel)%nat → Is_loop fuel st c target = Some false.
Proof.
  intros Hwf Ht bound. induction (lt_wf bound) as [bound _ IHb]. intros Hbound c.
  induction c as [|q|id text inner IHc]; intros Hc.
  - exists 1%nat. intros [|fuel] Hfuel; [lia|]. cbn.
    destruct (decide (nil_error = target)) as [<-|]; done.
  - destruct (Hc q eq_refl) as [Hq [e He]].
    destruct (Hwf q e He) as [Holder _].
    assert (target ≠ base q) as Hne.
    { intros ->. injection Ht as <-. lia. }
    destruct (IHb q Hq ltac:(lia) (cause e)) as [n Hn].
    { intros q' Hq'. split; [by apply Holder|].
      apply lookup_lt_is_Some. apply Holder in Hq'.
      apply lookup_lt_Some in He. lia. }
    exists (S n). intros [|fuel] Hfuel; [lia|].
    rewrite (Is_loop_step _ _ _ e) by done.
    destruct (decide (cause e = nil_error)); [done|]. apply Hn. lia.
  - destruct (IHc Hc) as [n Hn].
    exists (S n). intros [|fuel] Hfuel; [lia|]. cbn.
    destruct (decide (foreign id text inner = target)) as [<-|_].
    { destruct (Hc b Ht). lia. }
    destruct (decide (inner = nil_error)); [done|]. apply Hn. lia.
Qed.

(** X5. [SentinelWithStack] on a foreign error that wraps a [*baseError]
    wraps that [*baseError], not its argument: the result unwraps to the
    [*baseError] and matches it, and the foreign error is no longer on the
    chain, so [Is] does not find it. *)
Theorem SentinelWithStack_skips_foreign_layers (st : state) (callers : list Frame)
    (id : nat) (text : string) (inner : error) (b : loc) :
  wf st →
  As inner = Some b →
  is_Some (errs st !! b) →
  ∃ r st', SentinelWithStack st callers (foreign id text inner) = Some (r, st') ∧
    Unwrap st' r = Some (base b) ∧
    (∀ fuel, (2 ≤ fuel)%nat → Is fuel st' (base r) (base b) = Some true) ∧
    ∃ n, ∀ fuel, (n ≤ fuel)%nat →
      Is fuel st' (base r) (foreign id text inner) = Some false.
Proof.
  intros Hwf Hb [e He].
  assert (valid st (foreign id text inner)) as Hv.
  { intros b' Hb'. cbn in Hb'. rewrite Hb in Hb'. injection Hb' as <-. by eexists. }
  pose proof (wf_SentinelWithStack st callers (foreign id text inner)) as Hwf'.
  rewrite (SentinelWithStack_on_base _ _ _ b e) in * by done.
  specialize (Hwf' _ Hwf Hv eq_refl). cbn [snd] in Hwf'.
  set (new := {| cause := base b; msg := msg e; typeStr := typeStr e;
                 stacktrace := getStack callers 0; metadata := metadata e |}) in *.
  set (st' := {| errs := <[b:=set_stacktrace e None]> (errs st) ++ [new];
                 maps := maps st |}) in *.
  assert (errs st' !! length (errs st) = Some new) as Hnew.
  { cbn. apply list_lookup_middle. by rewrite length_insert. }
  assert (errs st' !! b = Some (set_stacktrace e None)) as Hb'.
  { cbn. apply lookup_app_l_Some. apply list_lookup_insert_eq.
    by eapply lookup_lt_Some. }
  pose proof (lookup_lt_Some _ _ _ He) as Hlt.
  exists (length (errs st)), st'. split; [done|].
  split. { unfold Unwrap. by rewrite Hnew. }
  split. { intros fuel Hfuel. by apply (Is_cause _ _ _ _ new). }
  destruct (Is_loop_misses st' (foreign id text inner) b Hwf' Hb b (le_n b)
              (cause e)) as [n Hn].
  { intros q Hq. destruct (Hwf b e He) as [Holder _]. apply Holder in Hq.
    split; [done|]. apply lookup_lt_is_Some. cbn.
    rewrite length_app, length_insert. lia. }
  exists (S (S n)). intros [|[|fuel]] Hfuel; [lia..|].
  unfold Is. rewrite decide_False by done.
  rewrite (Is_loop_step _ _ _ new) by done. cbn [cause new].
  rewrite decide_False by done.
  rewrite (Is_loop_step _ _ _ (set_stacktrace e None)) by done. cbn [cause set_stacktrace].
  destruct (decide (cause e = nil_error)); [done|]. apply Hn. lia.
Qed.

(** X6. A panic raised with a foreign error stays recognisable: the error
    [RecoverPanic] stores unwraps to the recovered error, [Is] matches it, and
    a tag carried by a [*baseError] on its chain becomes the tag of the stored
    error. *)
Theorem RecoverPanic_keeps_panic_error (st : state) (callers : list Frame)
    (id : nat) (text : string) (inner slot : error) :
  valid st inner →
  (2 ≤ length (frames (getStack callers 0)))%nat →
  ∃ w st',
    RecoverPanic st callers (any_error (foreign id text inner)) slot
      = Some (base w, st') ∧
    Unwrap st' w = Some (foreign id text inner) ∧
    (∀ fuel, (2 ≤ fuel)%nat →
       Is fuel st' (base w) (foreign id text inner) = Some true) ∧
    (∀ b, As inner = Some b → Type_ st' w = Type_ st b).
Proof.
  intros Hv Hlen.
  assert (∃ st0 new,
            Wrap st callers (foreign id text inner) "caught panic" []
              = Some (alloc_error st0 new) ∧
            stacktrace new = getStack callers 0 ∧
            cause new = foreign id text inner ∧
            (∀ b, As inner = Some b →
               ∃ e, errs st !! b = Some e ∧ typeStr new = typeStr e))
    as (st0 & new & HW & Hs & Hc & Hty).
  { destruct (As (foreign id text inner)) as [b|] eqn:Hb.
    - destruct (Hv b Hb) as [e He].
      rewrite (Wrap_on_base _ _ _ _ _ b e) by done.
      do 2 eexists. split; [done|]. repeat split.
      intros b' Hb'. cbn in Hb. rewrite Hb in Hb'. injection Hb' as <-. by exists e.
    - rewrite Wrap_on_other by done.
      do 2 eexists. split; [done|]. repeat split.
      intros b' Hb'. cbn in Hb. congruence. }
  destruct (RecoverPanic_trimmed st0 callers new Hs Hlen) as (st' & Ht & Hl).
  unfold RecoverPanic. rewrite HW.
  destruct (alloc_error st0 new) as [w st1]. cbn [fst snd] in *.
  exists w, st'. split. { cbn. by rewrite Ht. }
  split. { unfold Unwrap. rewrite Hl. cbn. by rewrite Hc. }
  split.
  { intros [|[|fuel]] Hfuel; [lia..|]. unfold Is. rewrite decide_False by done.
    rewrite (Is_loop_step _ _ _ _ _ Hl) by done. cbn [cause set_stacktrace].
    rewrite Hc. rewrite decide_False by done. cbn. by rewrite decide_True. }
  intros b Hb. destruct (Hty b Hb) as (e & He & Hte).
  rewrite (Type_lookup _ _ _ Hl), (Type_lookup _ _ _ He). cbn [typeStr set_stacktrace].
  by rewrite Hte.
Qed.

(** X7. The invariant of the heap: starting from the empty heap, every
    operation of the package leaves a heap in which each error has a metadata
    map and each cause is older than its wrapper. *)
Theorem package_keeps_heap_well_formed :
  wf empty_state ∧
  ∀ st callers, wf st →
    (∀ m args, wf (New st callers m args).2) ∧
    (∀ m ty args, wf (NewWithType st callers m ty args).2) ∧
    (∀ ty m, wf (NewSentinel st ty m).2) ∧
    (∀ err res, valid st err → W st callers err = Some res → wf res.2) ∧
    (∀ err m args res, valid st err →
       Wrap st callers err m args = Some res → wf res.2) ∧
    (∀ err m ty args res, valid st err →
       WrapWithType st callers err m ty args = Some res → wf res.2) ∧
    (∀ err res, valid st err →
       SentinelWithStack st callers err = Some res → wf res.2) ∧
    (∀ p meta st', WithMetadata st p meta = Some (p, st') → wf st') ∧
    (∀ r slot slot' st', (∀ e, r = any_error e → valid st e) →
       RecoverPanic st callers r slot = Some (slot', st') → wf st').
Proof.
  split; [apply wf_empty_state|]. intros st callers Hwf.
  split; [intros; by apply wf_New|].
  split; [intros; by apply wf_NewWithType|].
  split; [intros; by apply wf_NewSentinel|].
  split; [intros err res Hv HW; by apply (wf_W st callers err)|].
  split; [intros err m args res Hv HW; by apply (wf_Wrap st callers err m args)|].
  split; [intros err m ty args res Hv HW;
          by apply (wf_WrapWithType st callers err m ty args)|].
  split; [intros err res Hv HS; by apply (wf_SentinelWithStack st callers err)|].
  split; [intros p meta st' HW; by apply (wf_WithMetadata st p meta)|].
  intros r slot slot' st' Hv HR. by apply (wf_RecoverPanic st callers r slot slot').
Qed.

(** *** More on metadata and on the display string *)

Lemma store_map_id (st : state) (r : loc) (M : gmap string any) :
  maps st !! r = Some M → store_map st r M = st.
Proof.
  intros H. destruct st as [es ms]. unfold store_map. cbn in *.
  by rewrite list_insert_id.
Qed.

(** X8. On a heap of the package [WithMetadata] changes no error and no map
    but the one of its receiver, which becomes the union that prefers the
    update; a nil or empty update changes nothing at all, and repeating an
    update changes nothing more. *)
Theorem WithMetadata_only_writes_its_map (st : state) (p : loc) (meta : Metadata)
    (M2 : gmap string any) :
  wf st →
  is_Some (errs st !! p) →
  read_map st meta = Some M2 →
  ∃ st' r M1, WithMetadata st p meta = Some (p, st') ∧
    load_metadata st p = Some (Some r) ∧
    maps st !! r = Some M1 ∧
    errs st' = errs st ∧
    maps st' = <[r := M2 ∪ M1]> (maps st) ∧
    (M2 = ∅ → st' = st) ∧
    WithMetadata st' p meta = Some (p, st').
Proof.
  intros Hwf [e He] HM2.
  destruct (wf_metadata st Hwf p e He) as (r & Hr & [M1 HM1]).
  rewrite (WithMetadata_on_map _ _ _ e r M1 M2) by done.
  rewrite merge_into_union.
  exists (store_map st r (M2 ∪ M1)), r, M1. split; [done|].
  split. { unfold load_metadata. rewrite He. cbn. by rewrite Hr. }
  do 3 (split; [done|]).
  split.
  { intros ->. rewrite (left_id_L ∅ (∪)). by apply store_map_id. }
  assert (maps (store_map st r (M2 ∪ M1)) !! r = Some (M2 ∪ M1)) as Hnew.
  { cbn. apply list_lookup_insert_eq. by eapply lookup_lt_Some. }
  assert (∃ M2', read_map (store_map st r (M2 ∪ M1)) meta = Some M2' ∧
                 M2' ∪ (M2 ∪ M1) = M2 ∪ M1) as (M2' & HM2' & Hsame).
  { destruct meta as [r2|].
    - destruct (decide (r2 = r)) as [->|Hne].
      + exists (M2 ∪ M1). split; [done|]. by rewrite (idemp_L (∪)).
      + exists M2. split.
        * cbn in *. by rewrite list_lookup_insert_ne.
        * by rewrite (assoc_L (∪)), (idemp_L (∪)).
    - cbn in HM2. injection HM2 as <-. exists ∅. split; [done|].
      by rewrite (left_id_L ∅ (∪)). }
  rewrite (WithMetadata_on_map _ _ _ e r (M2 ∪ M1) M2'); [|done..].
  rewrite merge_into_union, Hsame. f_equal. f_equal. by apply store_map_id.
Qed.

Lemma Error_heap_mono (st st' : state) :
  (∀ p e, errs st !! p = Some e → errs st' !! p = Some e) →
  ∀ fuel err s, Error fuel st err = Some s → Error fuel st' err = Some s.
Proof.
  intros Hext fuel. induction fuel as [|n IH]; intros err s; [done|].
  destruct err as [|p|id text inner]; [done| |done].
  destruct (errs st !! p) as [e|] eqn:He; [|by cbn; rewrite He].
  rewrite (Error_unfold _ _ _ e He), (Error_unfold _ _ _ e (Hext p e He)).
  destruct (decide (cause e ≠ nil_error)); [|done].
  destruct (Error n st (cause e)) as [c|] eqn:Hc; [|done].
  by rewrite (IH _ _ Hc).
Qed.

(** X9. The display string of a wrapper is its own part, the arrow and the
    display string the wrapped error had before; wrapping nil gives a display
    string without an arrow. *)
Theorem Error_of_Wrap (st : state) (callers : list Frame) (m : string)
    (args : list any) :
  (∀ err fuel c,
     valid st err → Error fuel st err = Some c →
     ∃ w st' e, Wrap st callers err m args = Some (w, st') ∧
       errs st' !! w = Some e ∧ msg e = Sprintf m args ∧
       Error (S fuel) st' (base w) = Some (own_display e +:+ " => " +:+ c)) ∧
  (∃ w st' e, Wrap st callers nil_error m args = Some (w, st') ∧
     errs st' !! w = Some e ∧ msg e = Sprintf m args ∧
     ∀ fuel, Error (S fuel) st' (base w) = Some (own_display e)).
Proof.
  split.
  - intros err fuel c Hv Hc.
    destruct (Wrap_total st callers err m args Hv)
      as (st' & e & HW & He & Hcause & Hmsg & _ & Hext & _).
    exists (length (errs st)), st', e. do 3 (split; [done|]).
    rewrite (Error_unfold _ _ _ e He), Hcause.
    assert (err ≠ nil_error) as Hne.
    { intros ->. by destruct fuel. }
    rewrite decide_True by done.
    by rewrite (Error_heap_mono st st' Hext _ _ _ Hc).
  - destruct (Wrap_total st callers nil_error m args (valid_nil st))
      as (st' & e & HW & He & Hcause & Hmsg & _).
    exists (length (errs st)), st', e. do 3 (split; [done|]).
    intros fuel. rewrite (Error_unfold _ _ _ e He), Hcause. done.
Qed.

(** *** More on frame names *)

Lemma append_assoc (a b c : string) : (a +:+ b) +:+ c = a +:+ (b +:+ c).
Proof.
  induction a as [|x a IH]; [done|]. rewrite !append_cons. by rewrite IH.
Qed.

Lemma has_byte_take (c : ascii) (n : nat) (s : string) :
  Strings.has_byte c s = false → Strings.has_byte c (Strings.take n s) = false.
Proof.
  revert s. induction n as [|n IH]; intros [|c' s]; try done.
  cbn [Strings.has_byte Strings.take].
  destruct (Ascii.eqb c c'); [done|]. apply IH.
Qed.

(** What follows the last occurrence of a byte does not hold it. *)
Lemma LastIndex_byte_tail (c : ascii) (s : string) :
  (Strings.LastIndex s (String c "") = -1 ∧ Strings.has_byte c s = false) ∨
  (0 ≤ Strings.LastIndex s (String c "") ∧
   Strings.has_byte c
     (Strings.drop (Z.to_nat (Strings.LastIndex s (String c "") + 1)) s) = false).
Proof.
  induction s as [|c' s IH]; [by left|].
  rewrite LastIndex_byte_cons. cbn [Strings.has_byte].
  destruct IH as [[-> Hs]|[Hi Hs]].
  - cbn [Z.eqb]. destruct (Ascii.eqb c c'); [right|left]; done.
  - destruct (Z.eqb_spec (Strings.LastIndex s (String c "")) (-1)); [lia|].
    right. split; [lia|].
    replace (Z.to_nat (Strings.LastIndex s (String c "") + 1 + 1))
      with (S (Z.to_nat (Strings.LastIndex s (String c "") + 1))) by lia.
    done.
Qed.

(** What precedes the first occurrence of a byte does not hold it. *)
Lemma Index_byte_head (c : ascii) (s : string) :
  Strings.Index s (String c "") = -1 ∨
  (0 ≤ Strings.Index s (String c "") ∧
   Strings.has_byte c (Strings.take (Z.to_nat (Strings.Index s (String c ""))) s)
     = false).
Proof.
  induction s as [|c' s IH]; [by left|].
  rewrite Index_byte_cons.
  destruct (Ascii.eqb c c') eqn:Hc; [by right|].
  destruct IH as [->|[Hi Hs]]; [by left|].
  destruct (Z.eqb_spec (Strings.Index s (String c "")) (-1)); [lia|].
  right. split; [lia|].
  replace (Z.to_nat (Strings.Index s (String c "") + 1))
    with (S (Z.to_nat (Strings.Index s (String c "")))) by lia.
  cbn [Strings.take Strings.has_byte]. by rewrite Hc.
Qed.

(** X10. For every symbol, [FuncName()] holds no dot and [Package()] holds
    neither a dot nor a slash. *)
Theorem frame_names_hold_no_separator (f : Frame) :
  Strings.has_byte "." (FuncName f) = false ∧
  Strings.has_byte "." (Package f) = false ∧
  Strings.has_byte "/" (Package f) = false.
Proof.
  split.
  { unfold FuncName, Strings.slice_from.
    destruct (LastIndex_byte_tail "." (Function f)) as [[-> H]|[Hi H]]; [done|].
    destruct (Z.eqb_spec (Strings.LastIndex (Function f) ".") (-1)); [lia|done]. }
  unfold Package. destruct (_ || _); [done|]. cbv zeta.
  unfold Strings.slice, Strings.slice_from.
  set (sym := Strings.drop (Z.to_nat (Strings.LastIndex (Function f) "/" + 1))
                (Function f)).
  replace (Z.to_nat (Strings.LastIndex (Function f) "/" + 1 + Strings.Index sym "."
                     - (Strings.LastIndex (Function f) "/" + 1)))
    with (Z.to_nat (Strings.Index sym ".")) by lia.
  assert (Strings.has_byte "/" sym = false) as Hsym.
  { unfold sym. destruct (LastIndex_byte_tail "/" (Function f)) as [[-> H]|[Hi H]]; done. }
  destruct (Index_byte_head "." sym) as [->|[Hi H]]; [done|].
  destruct (Z.eqb_spec (Strings.Index sym ".") (-1)); [lia|]. cbn [negb].
  split; [done|]. by apply has_byte_take.
Qed.

(** X11. For a symbol whose path-free part is [pkg.fn], with no further dot,
    the two names put together with a dot give the path-free part back. *)
Theorem Package_FuncName_rebuild (f : Frame) (sym pkg fn : string) :
  reserved (Function f) = false →
  path_free_symbol (Function f) sym →
  sym = pkg +:+ "." +:+ fn →
  Strings.has_byte "." pkg = false →
  Strings.has_byte "." fn = false →
  Package f = pkg ∧ FuncName f = fn ∧
  Package f +:+ "." +:+ FuncName f = sym.
Proof.
  intros Hres Hsym Hs Hpkg Hfn.
  assert (Package f = pkg) as HP by (by apply (Package_first_dot f sym pkg fn)).
  assert (FuncName f = fn) as HF.
  { destruct Hsym as [_ [Hf|[dir Hf]]].
    - apply (FuncName_last_dot f pkg fn); [congruence|done].
    - apply (FuncName_last_dot f (dir +:+ "/" +:+ pkg) fn); [|done].
      rewrite Hf, Hs. by rewrite !append_assoc. }
  by rewrite HP, HF.
Qed.

(** *** The second errors.go *)

Lemma NoMeta_alloc_lookup_new (st : NoMeta.state) (e : NoMeta.baseError) :
  (NoMeta.alloc_error st e).2 !! (NoMeta.alloc_error st e).1 = Some e.
Proof. cbn. by apply list_lookup_middle. Qed.

Lemma NoMeta_alloc_lookup_old (st : NoMeta.state) (e e0 : NoMeta.baseError) (p : loc) :
  st !! p = Some e0 → (NoMeta.alloc_error st e).2 !! p = Some e0.
Proof. cbn. apply lookup_app_l_Some. Qed.

(** X12. [SentinelWithStack] of the second errors.go returns a copy of its
    argument with a fresh trace and the argument's own cause, and clears the
    trace of the argument: afterwards [Error()] on the argument panics, and a
    copy of an error without a cause is not matched against it by [Is]. *)
Theorem NoMeta_SentinelWithStack_copies (st : NoMeta.state) (callers : list Frame)
    (s : loc) (e : NoMeta.baseError) :
  st !! s = Some e →
  ∃ r st', NoMeta.SentinelWithStack st callers (base s) = Some (r, st') ∧
    r ≠ s ∧
    st' !! r = Some {| NoMeta.cause := NoMeta.cause e; NoMeta.msg := NoMeta.msg e;
                        NoMeta.typeStr := NoMeta.typeStr e;
                        NoMeta.stacktrace := getStack callers 0 |} ∧
    st' !! s = Some (NoMeta.set_stacktrace e None) ∧
    (∀ fuel, NoMeta.Error fuel st' (base s) = None) ∧
    (NoMeta.cause e = nil_error →
     ∀ fuel, fuel ≠ 0%nat → NoMeta.Is fuel st' (base r) (base s) = Some false).
Proof.
  intros He. unfold NoMeta.SentinelWithStack. rewrite He. cbn [mbind option_bind].
  pose proof (lookup_lt_Some _ _ _ He) as Hlt.
  set (new := {| NoMeta.cause := NoMeta.cause e; NoMeta.msg := NoMeta.msg e;
                 NoMeta.typeStr := NoMeta.typeStr e;
                 NoMeta.stacktrace := getStack callers 0 |}).
  set (st1 := <[s:=NoMeta.set_stacktrace e None]> st).
  assert (st1 !! s = Some (NoMeta.set_stacktrace e None)) as Hs1
    by (by apply list_lookup_insert_eq).
  pose proof (NoMeta_alloc_lookup_new st1 new) as Hnew.
  pose proof (NoMeta_alloc_lookup_old st1 new _ s Hs1) as Hs.
  assert ((NoMeta.alloc_error st1 new).1 ≠ s) as Hne
    by (cbn; unfold st1; rewrite length_insert; lia).
  destruct (NoMeta.alloc_error st1 new) as [r st']. cbn [fst snd] in *.
  exists r, st'. do 4 (split; [done|]).
  split.
  { intros fuel. by apply (NoMeta_Error_empty_trace _ _ _ (NoMeta.set_stacktrace e None)). }
  intros Hc [|fuel] Hfuel; [done|].
  unfold NoMeta.Is. rewrite decide_False by done. cbn.
  rewrite decide_False by congruence. rewrite Hnew. cbn. by rewrite Hc.
Qed.

(** X13. In the second errors.go [Wrap] hands on the tag of its argument only
    when the argument itself is a [*baseError]: a foreign error gives an
    untagged wrapper even when it wraps a tagged error. In both cases the
    wrapper unwraps to the argument. [WrapWithType] always returns, with the
    given tag. *)
Theorem NoMeta_Wrap_tag_of_direct_argument (st : NoMeta.state) (callers : list Frame)
    (m : string) (args : list any) :
  (∀ b e, st !! b = Some e →
     ∃ w st', NoMeta.Wrap Sprintf st callers (base b) m args = Some (w, st') ∧
       NoMeta.Unwrap st' w = Some (base b) ∧
       NoMeta.Type_ st' w = NoMeta.Type_ st b) ∧
  (∀ id text inner,
     ∃ w st',
       NoMeta.Wrap Sprintf st callers (foreign id text inner) m args = Some (w, st') ∧
       NoMeta.Unwrap st' w = Some (foreign id text inner) ∧
       NoMeta.Type_ st' w = Some reflect_type_name) ∧
  (∀ err ty, ty ≠ "" →
     NoMeta.Unwrap (NoMeta.WrapWithType Sprintf st callers err m ty args).2
       (NoMeta.WrapWithType Sprintf st callers err m ty args).1 = Some err ∧
     NoMeta.Type_ (NoMeta.WrapWithType Sprintf st callers err m ty args).2
       (NoMeta.WrapWithType Sprintf st callers err m ty args).1 = Some ty).
Proof.
  split.
  { intros b e He. unfold NoMeta.Wrap. rewrite He. cbn [mbind option_bind].
    do 2 eexists. split; [apply f_equal, surjective_pairing|].
    unfold NoMeta.Unwrap, NoMeta.Type_.
    rewrite NoMeta_alloc_lookup_new, He. done. }
  split.
  { intros id text inner. unfold NoMeta.Wrap.
    do 2 eexists. split; [apply f_equal, surjective_pairing|].
    unfold NoMeta.Unwrap, NoMeta.Type_.
    rewrite NoMeta_alloc_lookup_new. done. }
  intros err ty Hty. unfold NoMeta.WrapWithType, NoMeta.Unwrap, NoMeta.Type_.
  rewrite NoMeta_alloc_lookup_new. cbn. by rewrite decide_True.
Qed.

Lemma NoMeta_Error_unfold (n : nat) (st : NoMeta.state) (p : loc)
    (e : NoMeta.baseError) (top : Frame) (fs : list Frame) :
  st !! p = Some e → frames (NoMeta.stacktrace e) = top :: fs →
  NoMeta.Error (S n) st (base p) =
    if decide (NoMeta.cause e ≠ nil_error)
    then c ← NoMeta.Error n st (NoMeta.cause e);
         Some (NoMeta.own_display e top +:+ ": " +:+ c)
    else Some (NoMeta.own_display e top).
Proof. intros He Hs. cbn. rewrite He. cbn. rewrite Hs. done. Qed.

Lemma NoMeta_traced_alloc (st : NoMeta.state) (e : NoMeta.baseError) :
  NoMeta.traced st →
  frames (NoMeta.stacktrace e) ≠ [] →
  (∀ q, NoMeta.cause e = base q → is_Some (st !! q)) →
  NoMeta.traced (NoMeta.alloc_error st e).2.
Proof.
  intros Htr Hs Hc p e0 Hp. cbn in Hp.
  destruct (decide (p < length st)%nat) as [Hlt|Hge].
  - rewrite lookup_app_l in Hp by done. by apply Htr.
  - rewrite lookup_app_r in Hp by lia.
    destruct (p - length st)%nat as [|k] eqn:Hk; [|by destruct k].
    cbn in Hp. injection Hp as <-. split; [done|].
    intros q Hq. apply Hc in Hq. apply lookup_lt_is_Some in Hq. lia.
Qed.

(** X14. In the second errors.go [Error()] returns for every error of a heap
    in which each trace has a frame and each cause is older than its wrapper;
    [New], [NewWithType], [W], [Wrap] and [WrapWithType] keep the heap that
    way when they are called with a call stack of at least two frames. *)
Theorem NoMeta_Error_defined_on_traced_heaps (st : NoMeta.state) :
  NoMeta.traced st →
  (∀ p, is_Some (st !! p) →
     ∃ s, ∀ fuel, (p + 2 ≤ fuel)%nat → NoMeta.Error fuel st (base p) = Some s) ∧
  (∀ callers, (2 ≤ length callers)%nat →
     (∀ m args, NoMeta.traced (NoMeta.New Sprintf st callers m args).2) ∧
     (∀ m ty args, NoMeta.traced (NoMeta.NewWithType Sprintf st callers m ty args).2) ∧
     (∀ err res, NoMeta.W st callers err = Some res → NoMeta.traced res.2) ∧
     (∀ err m args res,
        NoMeta.Wrap Sprintf st callers err m args = Some res → NoMeta.traced res.2) ∧
     (∀ err m ty args, (∀ q, err = base q → is_Some (st !! q)) →
        NoMeta.traced (NoMeta.WrapWithType Sprintf st callers err m ty args).2)).
Proof.
  intros Htr. split.
  - intros p. induction (lt_wf p) as [p _ IH]. intros [e He].
    destruct (Htr p e He) as [Hs Holder].
    destruct (frames (NoMeta.stacktrace e)) as [|top fs] eqn:Hfs; [done|].
    destruct (NoMeta.cause e) as [|q|id text inner] eqn:Hc.
    + exists (NoMeta.own_display e top). intros [|n] Hfuel; [lia|].
      rewrite (NoMeta_Error_unfold _ _ _ e top fs He Hfs), Hc. done.
    + assert (q < p)%nat as Hq by (by apply Holder).
      destruct (IH q Hq) as [c Hcq].
      { apply lookup_lt_is_Some. apply lookup_lt_Some in He. lia. }
      exists (NoMeta.own_display e top +:+ ": " +:+ c). intros [|n] Hfuel; [lia|].
      rewrite (NoMeta_Error_unfold _ _ _ e top fs He Hfs), Hc.
      rewrite decide_True by done. rewrite Hcq by lia. done.
    + exists (NoMeta.own_display e top +:+ ": " +:+ text).
      intros [|[|n]] Hfuel; [lia..|].
      rewrite (NoMeta_Error_unfold _ _ _ e top fs He Hfs), Hc. done.
  - intros callers Hdeep.
    pose proof (getStack_0_nonempty callers Hdeep) as Hne.
    split; [intros; by apply NoMeta_traced_alloc|].
    split; [intros; by apply NoMeta_traced_alloc|].
    split.
    { intros err res. unfold NoMeta.W.
      destruct err as [|b|id text inner].
      - intros [= <-]. by apply NoMeta_traced_alloc.
      - destruct (st !! b) as [e|] eqn:He; [|done]. intros [= <-].
        apply NoMeta_traced_alloc; [done..|]. intros q [= <-]. by eexists.
      - intros [= <-]. by apply NoMeta_traced_alloc. }
    split.
    { intros err m args res. unfold NoMeta.Wrap.
      destruct err as [|b|id text inner].
      - intros [= <-]. by apply NoMeta_traced_alloc.
      - destruct (st !! b) as [e|] eqn:He; [|done]. intros [= <-].
        apply NoMeta_traced_alloc; [done..|]. intros q [= <-]. by eexists.
      - intros [= <-]. by apply NoMeta_traced_alloc. }
    intros err m ty args Herr. by apply NoMeta_traced_alloc.
Qed.

(** *** Leaf errors *)

(** X15. An error made by [New], [NewWithType] or [NewSentinel] wraps nothing
    and has an empty metadata map of its own: attaching metadata to it shows
    on it and on no error that was there before (unlike a wrapper made by
    [Wrap], which shares the map of the error it wraps). *)
Theorem leaf_error_has_its_own_metadata (st : state) (callers : list Frame)
    (m ty : string) (args : list any) (res : loc * state) :
  wf st →
  res = New st callers m args ∨ res = NewWithType st callers m ty args ∨
    res = NewSentinel st ty m →
  Unwrap res.2 res.1 = Some nil_error ∧
  exposed_metadata res.2 (base res.1) = Some ∅ ∧
  ∀ (meta : Metadata) (M2 : gmap string any),
    read_map res.2 meta = Some M2 →
    ∃ st2, WithMetadata res.2 res.1 meta = Some (res.1, st2) ∧
      exposed_metadata st2 (base res.1) = Some M2 ∧
      ∀ err M, exposed_metadata st err = Some M → exposed_metadata st2 err = Some M.
Proof.
  intros Hwf Hres.
  assert (∃ new, res = alloc_error (make_map st ∅).2 new ∧
                 cause new = nil_error ∧
                 metadata new = Some (length (maps st))) as (new & -> & Hc & Hm).
  { destruct Hres as [->|[->| ->]]; by eexists. }
  pose proof (alloc_error_lookup_new (make_map st ∅).2 new) as Hnew.
  assert (maps (alloc_error (make_map st ∅).2 new).2 !! length (maps st) = Some ∅)
    as Hmap by (cbn; by apply list_lookup_middle).
  assert (∀ p e, errs st !! p = Some e →
            errs (alloc_error (make_map st ∅).2 new).2 !! p = Some e) as Hold
    by (intros p e; apply (alloc_error_lookup_old (make_map st ∅).2)).
  assert (maps (alloc_error (make_map st ∅).2 new).2 = maps st ++ [∅]) as Hmaps by done.
  destruct (alloc_error (make_map st ∅).2 new) as [w st1]. cbn [fst snd] in *.
  split. { unfold Unwrap. rewrite Hnew. cbn. by rewrite Hc. }
  split. { rewrite (exposed_metadata_on_base _ _ w new) by done. by rewrite Hm. }
  intros meta M2 HM2.
  rewrite (WithMetadata_on_map _ _ _ new (length (maps st)) ∅ M2) by done.
  rewrite merge_into_union, (right_id_L ∅ (∪)).
  eexists. split; [done|].
  split.
  { apply (exposed_metadata_store_map _ _ _ _ w new); [done..|]. by eexists. }
  intros err M (b & e & Hb & He & HM)%exposed_metadata_inv.
  destruct (wf_metadata st Hwf b e He) as (r & Hr & Hr').
  rewrite (exposed_metadata_on_base _ _ b e); [|done|by apply Hold].
  rewrite Hr in *. cbn in *. rewrite Hmaps.
  apply lookup_lt_is_Some in Hr'.
  rewrite list_lookup_insert_ne by lia. by apply lookup_app_l_Some.
Qed.

End Errors.

(** ** The properties at concrete inputs *)

Lemma plain_Sprintf_verbatim (format : string) :
  verbatim format = true → plain_Sprintf format [] = format.
Proof. done. Qed.

Lemma wf_example_state : wf example_state.
Proof.
  intros p e H. destruct p as [|p]; [|by destruct p].
  injection H as <-. split; [by intros b|].
  exists 0%nat. split; [done|]. by eexists.
Qed.

Lemma valid_example_error : valid example_state (base 0).
Proof. intros b [= <-]. by eexists. Qed.

Lemma Wrap_propagates_type_witness :
  (∃ w st', Wrap plain_Sprintf example_state main_stack (base 0) "request failed" []
              = Some (w, st') ∧ Type_ st' w = Some "IOError") ∧
  (∃ w st' p,
     wrap_layers plain_Sprintf example_state (base 0)
       [(main_stack, "save failed", []); (main_stack, "request failed", [])]
       = Some (w, st') ∧
     As w = Some p ∧ Type_ st' p = Some "IOError").
Proof.
  exact (Wrap_propagates_type plain_Sprintf example_state main_stack (base 0)
           "request failed" [] 0%nat "IOError"
           [(main_stack, "save failed", []); (main_stack, "request failed", [])]
           eq_refl eq_refl).
Defined.

Lemma Unwrap_Wrap_witness :
  ∃ w st', Wrap plain_Sprintf example_state main_stack (base 0) "request failed" []
             = Some (w, st') ∧ Unwrap st' w = Some (base 0).
Proof. exact (Unwrap_Wrap plain_Sprintf _ _ _ _ _ valid_example_error). Defined.

Lemma Wrap_WithMetadata_shallow_merge_witness :
  ∃ w st1,
    Wrap plain_Sprintf example_state main_stack (base 0) "request failed" []
      = Some (w, st1) ∧
    exposed_metadata st1 (base w) = Some {[ "path" := any_value (VString "/tmp/a") ]} ∧
    ∀ (meta : Metadata) (M2 : gmap string any),
      read_map st1 meta = Some M2 →
      ∃ st2 M, WithMetadata st1 w meta = Some (w, st2) ∧
        exposed_metadata st2 (base w) = Some M ∧
        (∀ k v, M2 !! k = Some v → M !! k = Some v) ∧
        (∀ k, M2 !! k = None →
              M !! k = ({[ "path" := any_value (VString "/tmp/a") ]} : gmap string any) !! k) ∧
        (∀ r, load_metadata st1 w ≠ Some (Some r) → maps st2 !! r = maps st1 !! r).
Proof.
  exact (Wrap_WithMetadata_shallow_merge plain_Sprintf example_state main_stack
           (base 0) "request failed" [] _ eq_refl).
Defined.

Lemma Wrap_shares_metadata_map_witness :
  ∃ w st1 r M1,
    Wrap plain_Sprintf example_state main_stack (base 0) "request failed" []
      = Some (w, st1) ∧ w ≠ 0%nat ∧
    load_metadata st1 w = Some (Some r) ∧
    load_metadata st1 0%nat = Some (Some r) ∧
    exposed_metadata st1 (base 0) = Some M1 ∧
    ∀ (meta : Metadata) (M2 : gmap string any),
      read_map st1 meta = Some M2 →
      ∃ st2, WithMetadata st1 w meta = Some (w, st2) ∧
        exposed_metadata st2 (base 0) = Some (M2 ∪ M1) ∧
        exposed_metadata st2 (base w) = Some (M2 ∪ M1) ∧
        ∀ err p e', As err = Some p → errs st1 !! p = Some e' →
          metadata e' = Some r → exposed_metadata st2 err = Some (M2 ∪ M1).
Proof.
  exact (Wrap_shares_metadata_map plain_Sprintf example_state main_stack 0%nat
           "request failed" [] _ wf_example_state (mk_is_Some _ _ eq_refl)
           (or_introl eq_refl)).
Defined.

Lemma WrapWithType_sets_type_shares_map_witness :
  (∃ w st1 ew,
     WrapWithType plain_Sprintf example_state main_stack (base 0) "save failed" "Storage" []
       = Some (w, st1) ∧
     errs st1 !! w = Some ew ∧ typeStr ew = "Storage" ∧ cause ew = base 0 ∧
     ("Storage" ≠ "" → Type_ st1 w = Some "Storage") ∧
     (As (base 0) = None →
        exposed_metadata st1 (base w) = Some ∅ ∧
        ∃ r, load_metadata st1 w = Some (Some r) ∧
          maps example_state !! r = None ∧
          maps st1 !! r = Some ∅ ∧
          (∀ p e, errs st1 !! p = Some e → metadata e = Some r → p = w) ∧
          ∀ (meta : Metadata) (M2 : gmap string any),
            read_map st1 meta = Some M2 →
            ∃ st2, WithMetadata st1 w meta = Some (w, st2) ∧
              exposed_metadata st2 (base w) = Some M2 ∧
              ∀ err' M, exposed_metadata example_state err' = Some M →
                        exposed_metadata st2 err' = Some M) ∧
     (∀ b, As (base 0) = Some b →
        ∃ r M1, load_metadata st1 w = Some (Some r) ∧
          load_metadata st1 b = Some (Some r) ∧
          exposed_metadata st1 (base 0) = Some M1 ∧
          ∀ (meta : Metadata) (M2 : gmap string any),
            read_map st1 meta = Some M2 →
            ∃ st2, WithMetadata st1 w meta = Some (w, st2) ∧
              exposed_metadata st2 (base 0) = Some (M2 ∪ M1) ∧
              exposed_metadata st2 (base w) = Some (M2 ∪ M1))) ∧
  (∃ w st1 ew,
     WrapWithType plain_Sprintf example_state main_stack (foreign 9 "EOF" nil_error)
       "read failed" "Storage" [] = Some (w, st1) ∧
     errs st1 !! w = Some ew ∧ typeStr ew = "Storage" ∧
     cause ew = foreign 9 "EOF" nil_error ∧
     ("Storage" ≠ "" → Type_ st1 w = Some "Storage") ∧
     (As (foreign 9 "EOF" nil_error) = None →
        exposed_metadata st1 (base w) = Some ∅ ∧
        ∃ r, load_metadata st1 w = Some (Some r) ∧
          maps example_state !! r = None ∧
          maps st1 !! r = Some ∅ ∧
          (∀ p e, errs st1 !! p = Some e → metadata e = Some r → p = w) ∧
          ∀ (meta : Metadata) (M2 : gmap string any),
            read_map st1 meta = Some M2 →
            ∃ st2, WithMetadata st1 w meta = Some (w, st2) ∧
              exposed_metadata st2 (base w) = Some M2 ∧
              ∀ err' M, exposed_metadata example_state err' = Some M →
                        exposed_metadata st2 err' = Some M) ∧
     (∀ b, As (foreign 9 "EOF" nil_error) = Some b →
        ∃ r M1, load_metadata st1 w = Some (Some r) ∧
          load_metadata st1 b = Some (Some r) ∧
          exposed_metadata st1 (foreign 9 "EOF" nil_error) = Some M1 ∧
          ∀ (meta : Metadata) (M2 : gmap string any),
            read_map st1 meta = Some M2 →
            ∃ st2, WithMetadata st1 w meta = Some (w, st2) ∧
              exposed_metadata st2 (foreign 9 "EOF" nil_error) = Some (M2 ∪ M1) ∧
              exposed_metadata st2 (base w) = Some (M2 ∪ M1))).
Proof.
  split.
  - exact (WrapWithType_sets_type_shares_map plain_Sprintf example_state main_stack
             (base 0) "save failed" "Storage" [] wf_example_state valid_example_error).
  - apply (WrapWithType_sets_type_shares_map plain_Sprintf example_state main_stack
             (foreign 9 "EOF" nil_error) "read failed" "Storage" [] wf_example_state).
    intros b Hb. discriminate Hb.
Defined.

(** The wrapped error shows an entry that was attached to the wrapper made by
    [WrapWithType]. *)
Lemma WrapWithType_copy_counterexample :
  ∃ w st1 st2,
    WrapWithType plain_Sprintf example_state main_stack (base 0) "save failed" "Storage" []
      = Some (w, st1) ∧
    exposed_metadata st1 (base 0) ≫= (.!! "attempt") = None ∧
    WithMetadata st1 w (Some 1%nat) = Some (w, st2) ∧
    exposed_metadata st2 (base 0) ≫= (.!! "attempt") = Some (any_value (VInt 3)).
Proof.
  do 3 eexists. split; [reflexivity|]. split; [by vm_compute|].
  split; [reflexivity|]. by vm_compute.
Qed.

(** Two calls with the same call stack carry equal traces. *)
Lemma SentinelWithStack_same_trace_counterexample :
  ∃ s st r1 st1 r2 st2,
    NewSentinel empty_state "NotFound" "not found" = (s, st) ∧
    SentinelWithStack st main_stack (base s) = Some (r1, st1) ∧
    SentinelWithStack st1 main_stack (base s) = Some (r2, st2) ∧
    r1 ≠ r2 ∧
    StackTrace_ st2 r1 = Some (Some [frame_of "main.handle"; frame_of "main.main"]) ∧
    StackTrace_ st2 r2 = Some (Some [frame_of "main.handle"; frame_of "main.main"]).
Proof. do 6 eexists. repeat split; try reflexivity. cbn. lia. Qed.

Lemma SentinelWithStack_frame_witness :
  ∃ r st', SentinelWithStack example_state main_stack (base 0) = Some (r, st') ∧
    errs example_state !! r = None ∧
    StackTrace_ st' r = Some (getStack main_stack 0) ∧
    (∀ q m, maps example_state !! q = Some m → maps st' !! q = Some m) ∧
    (∀ p e, errs example_state !! p = Some e →
       ∃ e', errs st' !! p = Some e' ∧
         cause e' = cause e ∧ msg e' = msg e ∧ typeStr e' = typeStr e ∧
         metadata e' = metadata e ∧
         stacktrace e' = (if decide (As (base 0) = Some p) then None else stacktrace e) ∧
         (stacktrace e = None → e' = e)).
Proof.
  exact (proj1 SentinelWithStack_frame example_state main_stack (base 0)
           valid_example_error).
Defined.

(** A sentinel made by [NewWithType] in a package initialiser loses its
    trace when [SentinelWithStack] is called on it. *)
Lemma SentinelWithStack_mutates_counterexample :
  ∃ s st r st',
    NewWithType plain_Sprintf empty_state init_stack "not found" "NotFound" [] = (s, st) ∧
    StackTrace_ st s = Some (Some [frame_of "main.init"; frame_of "runtime.main"]) ∧
    SentinelWithStack st main_stack (base s) = Some (r, st') ∧
    StackTrace_ st' s = Some None.
Proof. do 4 eexists. repeat split; reflexivity. Qed.

Lemma recover_stack_deep :
  (2 ≤ length (frames (getStack recover_stack 0)))%nat.
Proof. cbn. lia. Qed.

Lemma RecoverPanic_cases_witness :
  RecoverPanic plain_Sprintf example_state recover_stack any_nil (base 0)
    = Some (base 0, example_state) ∧
  RecoverPanic plain_Sprintf example_state recover_stack (any_error (base 0)) nil_error
    = Some (base 0, example_state) ∧
  (∃ w st1 e1 st',
     Wrap plain_Sprintf example_state recover_stack (foreign 7 "EOF" nil_error)
       "caught panic" [] = Some (w, st1) ∧
     errs st1 !! w = Some e1 ∧
     RecoverPanic plain_Sprintf example_state recover_stack
       (any_error (foreign 7 "EOF" nil_error)) nil_error = Some (base w, st') ∧
     errs st' !! w
       = Some (set_stacktrace e1 (Some (drop 2 (frames (getStack recover_stack 0))))) ∧
     cause e1 = foreign 7 "EOF" nil_error ∧ msg e1 = "caught panic") ∧
  (∃ w st' m,
     RecoverPanic plain_Sprintf example_state recover_stack
       (any_value (VString "boom")) nil_error = Some (base w, st') ∧
     errs st' !! w
       = Some {| cause := nil_error;
                 msg := plain_Sprintf
                          (plain_Sprintf "caught panic: %v" [any_value (VString "boom")]) [];
                 typeStr := "";
                 stacktrace := Some (drop 2 (frames (getStack recover_stack 0)));
                 metadata := Some m |}).
Proof.
  destruct (RecoverPanic_cases plain_Sprintf plain_Sprintf_verbatim example_state
              recover_stack (base 0)) as (Hnil & _).
  destruct (RecoverPanic_cases plain_Sprintf plain_Sprintf_verbatim example_state
              recover_stack nil_error) as (_ & Hbase & Hforeign & Hvalue & _).
  split; [exact Hnil|]. split; [exact (Hbase 0%nat)|].
  split.
  - exact (Hforeign 7%nat "EOF" nil_error (valid_nil example_state) recover_stack_deep).
  - exact (Hvalue (VString "boom") recover_stack_deep).
Defined.

Lemma Error_display_string_witness :
  (∃ s, ∀ fuel, (length (errs example_state) < fuel)%nat →
          Error fuel example_state (base 0) = Some s) ∧
  (∃ e1 st1 e2 st2 e3 st3,
     New plain_Sprintf empty_state main_stack "disk full" [] = (e1, st1) ∧
     WrapWithType plain_Sprintf st1 main_stack (base e1) "save failed" "IOError" []
       = Some (e2, st2) ∧
     Wrap plain_Sprintf st2 main_stack (base e2) "request failed" [] = Some (e3, st3) ∧
     Type_ st3 e3 = Some "IOError" ∧
     Unwrap st3 e3 = Some (base e2) ∧ Unwrap st3 e2 = Some (base e1) ∧
     ∃ x1 x2 x3, ∀ fuel, (3 ≤ fuel)%nat →
       Error fuel st3 (base e3) =
         Some (("[" +:+ x3 +:+ "] " +:+ "request failed") +:+ " => " +:+
               ("[" +:+ x2 +:+ "] " +:+ "save failed") +:+ " => " +:+
               ("[" +:+ x1 +:+ "] " +:+ "disk full"))).
Proof.
  destruct (Error_display_string plain_Sprintf plain_Sprintf_verbatim example_state
              wf_example_state) as (Hdef & _ & _ & _ & _ & Hchain).
  split.
  - apply (Hdef (base 0) valid_example_error). discriminate.
  - exact (Hchain empty_state main_stack main_stack main_stack).
Defined.

(** The context is in brackets, not the message. *)
Lemma Error_brackets_counterexample :
  Error 1 example_state (base 0) = Some "[IOError@main.save] disk full" ∧
  Error_as_specified 1 example_state (base 0) = Some "IOError@main.save [disk full]".
Proof. split; reflexivity. Qed.

(** The package ends at the first dot. *)
Lemma Package_last_dot_counterexample :
  Package (frame_of "pkg/sub.Handler.func1") = "sub" ∧
  Package_as_specified (frame_of "pkg/sub.Handler.func1") = "sub.Handler".
Proof. split; reflexivity. Qed.

(** *** Some runs *)

Example Error_of_chain :
  ∃ e1 st1 e2 st2 e3 st3,
    New plain_Sprintf empty_state main_stack "disk full" [] = (e1, st1) ∧
    WrapWithType plain_Sprintf st1 main_stack (base e1) "save failed" "IOError" []
      = Some (e2, st2) ∧
    Wrap plain_Sprintf st2 main_stack (base e2) "request failed" [] = Some (e3, st3) ∧
    Error 3 st3 (base e3) =
      Some "[IOError@main.handle] request failed => [IOError@main.handle] save failed => [main.handle] disk full".
Proof. do 6 eexists. repeat split; reflexivity. Qed.

Example Error_of_sentinel :
  ∃ s st, NewSentinel empty_state "NotFound" "" = (s, st) ∧
    Error 1 st (base s) = Some "NotFound".
Proof. do 2 eexists. split; reflexivity. Qed.

Example RecoverPanic_as_goroutine :
  RecoverPanic plain_Sprintf empty_state
    [frame_of "errors.RecoverPanic"; frame_of "runtime.goexit"]
    (any_value (VString "boom")) nil_error = None.
Proof. reflexivity. Qed.

Example FuncName_with_dotted_path :
  FuncName (frame_of "github.com/exactlylabs/go-errors/pkg/errors.New") = "New" ∧
  Package (frame_of "github.com/exactlylabs/go-errors/pkg/errors.New") = "errors" ∧
  Package (frame_of "main.main") = "main" ∧
  Package (frame_of "go.shape.int") = "".
Proof. repeat split; reflexivity. Qed.

(** ** The further properties at concrete inputs *)

Lemma constructors_agree_witness :
  (∀ err, W example_state main_stack err
          = Wrap plain_Sprintf example_state main_stack err "" []) ∧
  (∀ m args, Wrap plain_Sprintf example_state main_stack nil_error m args
             = Some (New plain_Sprintf example_state main_stack m args)) ∧
  (∀ m ty args,
     WrapWithType plain_Sprintf example_state main_stack nil_error m ty args
       = Some (NewWithType plain_Sprintf example_state main_stack m ty args)) ∧
  (∀ m args, NewWithType plain_Sprintf example_state main_stack m "" args
             = New plain_Sprintf example_state main_stack m args) ∧
  (∀ err, As err = None →
          SentinelWithStack example_state main_stack err
          = W example_state main_stack err).
Proof.
  exact (constructors_agree plain_Sprintf plain_Sprintf_verbatim example_state
           main_stack).
Defined.

Lemma Is_through_Wrap_witness :
  ∃ w st',
    Wrap plain_Sprintf example_state main_stack eof_error "request failed" []
      = Some (w, st') ∧
    Is 3 st' (base w) (base 0) = Some true ∧
    Is 3 st' (base w) (base w) = Some true ∧
    (eof_error ≠ nil_error → Is 4 st' (base w) eof_error = Some true).
Proof.
  apply (Is_through_Wrap plain_Sprintf example_state main_stack eof_error (base 0)
           "request failed" [] 2 true).
  - intros b [= <-]. by eexists.
  - exact valid_example_error.
  - discriminate.
  - reflexivity.
Defined.

Lemma SentinelWithStack_skips_foreign_layers_witness :
  ∃ r st', SentinelWithStack example_state main_stack eof_error = Some (r, st') ∧
    Unwrap st' r = Some (base 0) ∧
    (∀ fuel, (2 ≤ fuel)%nat → Is fuel st' (base r) (base 0) = Some true) ∧
    ∃ n, ∀ fuel, (n ≤ fuel)%nat → Is fuel st' (base r) eof_error = Some false.
Proof.
  apply (SentinelWithStack_skips_foreign_layers example_state main_stack 7
           "read failed: disk full" (base 0) 0%nat wf_example_state eq_refl).
  by eexists.
Defined.

Lemma RecoverPanic_keeps_panic_error_witness :
  ∃ w st',
    RecoverPanic plain_Sprintf example_state recover_stack (any_error eof_error)
      nil_error = Some (base w, st') ∧
    Unwrap st' w = Some eof_error ∧
    (∀ fuel, (2 ≤ fuel)%nat → Is fuel st' (base w) eof_error = Some true) ∧
    (∀ b, As (base 0) = Some b → Type_ st' w = Type_ example_state b).
Proof.
  exact (RecoverPanic_keeps_panic_error plain_Sprintf example_state recover_stack 7
           "read failed: disk full" (base 0) nil_error valid_example_error
           recover_stack_deep).
Defined.

Lemma WithMetadata_only_writes_its_map_witness :
  ∃ st' r M1, WithMetadata example_state 0 (Some 1%nat) = Some (0%nat, st') ∧
    load_metadata example_state 0 = Some (Some r) ∧
    maps example_state !! r = Some M1 ∧
    errs st' = errs example_state ∧
    maps st' = <[r := {[ "attempt" := any_value (VInt 3) ]} ∪ M1]> (maps example_state) ∧
    (({[ "attempt" := any_value (VInt 3) ]} : gmap string any) = ∅ → st' = example_state) ∧
    WithMetadata st' 0 (Some 1%nat) = Some (0%nat, st').
Proof.
  apply (WithMetadata_only_writes_its_map example_state 0 (Some 1%nat) _
           wf_example_state).
  - by eexists.
  - reflexivity.
Defined.

Lemma Package_FuncName_rebuild_witness :
  Package (frame_of "github.com/exactlylabs/go-errors/pkg/errors.New") = "errors" ∧
  FuncName (frame_of "github.com/exactlylabs/go-errors/pkg/errors.New") = "New" ∧
  Package (frame_of "github.com/exactlylabs/go-errors/pkg/errors.New") +:+ "." +:+
    FuncName (frame_of "github.com/exactlylabs/go-errors/pkg/errors.New")
    = "errors.New".
Proof.
  apply (Package_FuncName_rebuild
           (frame_of "github.com/exactlylabs/go-errors/pkg/errors.New")
           "errors.New" "errors" "New").
  - reflexivity.
  - split; [reflexivity|]. right.
    by exists "github.com/exactlylabs/go-errors/pkg".
  - reflexivity.
  - reflexivity.
  - reflexivity.
Defined.

Lemma NoMeta_SentinelWithStack_copies_witness :
  ∃ r st',
    NoMeta.SentinelWithStack NoMeta_example_state main_stack (base 0) = Some (r, st') ∧
    r ≠ 0%nat ∧
    st' !! r = Some {| NoMeta.cause := nil_error; NoMeta.msg := "not found";
                        NoMeta.typeStr := "NotFound";
                        NoMeta.stacktrace := getStack main_stack 0 |} ∧
    st' !! 0%nat = Some {| NoMeta.cause := nil_error; NoMeta.msg := "not found";
                           NoMeta.typeStr := "NotFound"; NoMeta.stacktrace := None |} ∧
    (∀ fuel, NoMeta.Error fuel st' (base 0) = None) ∧
    (nil_error = nil_error →
     ∀ fuel, fuel ≠ 0%nat → NoMeta.Is fuel st' (base r) (base 0) = Some false).
Proof.
  exact (NoMeta_SentinelWithStack_copies NoMeta_example_state main_stack 0%nat _
           eq_refl).
Defined.

Lemma NoMeta_example_state_traced : NoMeta.traced NoMeta_example_state.
Proof.
  intros p e H. destruct p as [|p]; [|by destruct p].
  injection H as <-. done.
Qed.

Lemma NoMeta_Error_defined_on_traced_heaps_witness :
  (∃ s, ∀ fuel, (0 + 2 ≤ fuel)%nat →
          NoMeta.Error fuel NoMeta_example_state (base 0) = Some s) ∧
  NoMeta.traced
    (NoMeta.New plain_Sprintf NoMeta_example_state main_stack "disk full" []).2.
Proof.
  destruct (NoMeta_Error_defined_on_traced_heaps plain_Sprintf NoMeta_example_state
              NoMeta_example_state_traced) as [Hdef Hkeep].
  split.
  - apply (Hdef 0%nat). by eexists.
  - destruct (Hkeep main_stack ltac:(cbn; lia)) as [HN _].
    exact (HN "disk full" []).
Defined.

Lemma leaf_error_has_its_own_metadata_witness :
  Unwrap (New plain_Sprintf example_state main_stack "timeout" []).2
    (New plain_Sprintf example_state main_stack "timeout" []).1 = Some nil_error ∧
  exposed_metadata (New plain_Sprintf example_state main_stack "timeout" []).2
    (base (New plain_Sprintf example_state main_stack "timeout" []).1) = Some ∅ ∧
  ∀ (meta : Metadata) (M2 : gmap string any),
    read_map (New plain_Sprintf example_state main_stack "timeout" []).2 meta = Some M2 →
    ∃ st2,
      WithMetadata (New plain_Sprintf example_state main_stack "timeout" []).2
        (New plain_Sprintf example_state main_stack "timeout" []).1 meta
        = Some ((New plain_Sprintf example_state main_stack "timeout" []).1, st2) ∧
      exposed_metadata st2
        (base (New plain_Sprintf example_state main_stack "timeout" []).1) = Some M2 ∧
      ∀ err M, exposed_metadata example_state err = Some M →
               exposed_metadata st2 err = Some M.
Proof.
  exact (leaf_error_has_its_own_metadata plain_Sprintf example_state main_stack
           "timeout" "" [] _ wf_example_state (or_introl eq_refl)).
Defined.
